(** * Label derivation engine of node-feature-discovery's custom source

    Shallow embedding of the rule engine of the custom feature source
    (source/custom/custom.go) and of its sibling in the nfd API package
    (pkg/apis/nfd/v1alpha1/rule.go):

    - the feature snapshot [DomainFeatures] (pkg/api/feature);
    - [FeatureMatcher.match], shared verbatim by both files;
    - [Rule.execute] and [Rule.executeLabelsTemplate] of the custom source
      (module [Custom]), [Rule.Execute], [executeLabelsTemplate] and
      [templateHelper.expandMap] of v1alpha1 (module [V1alpha1]);
    - [LegacyRule.execute], [LegacyMatcher.match], [CustomRule.execute],
      [CustomRule.UnmarshalJSON], [CustomRule.MarshalJSON] and
      [customSource.GetLabels].

    Go's [(value, error)] results are pairs [option A * option error], so
    that a nil map and a non-nil error are both visible.  The collaborators
    that live outside these files (the match-expression evaluator, Go's
    text/template, the YAML/JSON codecs, the legacy sub-rule probes) are
    type classes, the way the Go code reaches them through an interface
    or a library call. *)

From Stdlib Require Import Ascii String ZArith.
From stdpp Require Import base gmap strings list.

Open Scope string_scope.

(** ** Go strings helpers

    A Go string is a sequence of bytes, usually UTF-8 text; here a [string]
    of [ascii] characters, one per byte. *)

Definition newline : ascii := "010"%char.

(** A string without '\n': a single line of text. *)
Definition no_newline (s : string) : bool :=
  forallb (fun a => negb (Ascii.eqb a newline)) (list_ascii_of_string s).

(** The [asciiSpace] table of package strings: '\t', '\n', '\v', '\f', '\r', ' '. *)
Definition is_space (a : ascii) : bool :=
  let n := nat_of_ascii a in (((9 <=? n) && (n <=? 13)) || (n =? 32))%nat.

(** *** unicode/utf8 and unicode *)

Section Unicode.
Local Open Scope Z_scope.

Definition byte_val (b : ascii) : Z := Z.of_nat (nat_of_ascii b).

Definition byte_of (z : Z) : ascii := ascii_of_nat (Z.to_nat z).

Definition RuneError : Z := 0xFFFD.
Definition RuneSelf : Z := 0x80.
Definition MaxRune : Z := 0x10FFFF.

Definition in_range (lo hi : Z) (b : ascii) : bool := (lo <=? byte_val b) && (byte_val b <=? hi).

(** [utf8.RuneStart]: [b] is not a continuation byte. *)
Definition RuneStart (b : ascii) : bool := negb (Z.land (byte_val b) 0xC0 =? 0x80).

(** [utf8.DecodeRuneInString] on the bytes [b :: bs]: the first rune and its
    width.  The first byte gives the length and the accepted range of the
    second byte (table [first] and [acceptRanges]); an invalid or short
    encoding is [RuneError] of width 1. *)
Definition DecodeRune (b : ascii) (bs : list ascii) : Z * nat :=
  let x := byte_val b in
  let cont c := Z.land (byte_val c) 0x3F in
  if x <? RuneSelf then (x, 1%nat)
  else if (0xC2 <=? x) && (x <=? 0xDF) then
    match bs with
    | c1 :: _ =>
        if in_range 0x80 0xBF c1
        then (Z.lor (Z.shiftl (Z.land x 0x1F) 6) (cont c1), 2%nat)
        else (RuneError, 1%nat)
    | [] => (RuneError, 1%nat)
    end
  else if (0xE0 <=? x) && (x <=? 0xEF) then
    let lo := if x =? 0xE0 then 0xA0 else 0x80 in
    let hi := if x =? 0xED then 0x9F else 0xBF in
    match bs with
    | c1 :: c2 :: _ =>
        if in_range lo hi c1 && in_range 0x80 0xBF c2
        then (Z.lor (Z.shiftl (Z.land x 0x0F) 12)
                (Z.lor (Z.shiftl (cont c1) 6) (cont c2)), 3%nat)
        else (RuneError, 1%nat)
    | _ => (RuneError, 1%nat)
    end
  else if (0xF0 <=? x) && (x <=? 0xF4) then
    let lo := if x =? 0xF0 then 0x90 else 0x80 in
    let hi := if x =? 0xF4 then 0x8F else 0xBF in
    match bs with
    | c1 :: c2 :: c3 :: _ =>
        if in_range lo hi c1 && in_range 0x80 0xBF c2 && in_range 0x80 0xBF c3
        then (Z.lor (Z.shiftl (Z.land x 0x07) 18)
                (Z.lor (Z.shiftl (cont c1) 12) (Z.lor (Z.shiftl (cont c2) 6) (cont c3))), 4%nat)
        else (RuneError, 1%nat)
    | _ => (RuneError, 1%nat)
    end
  else (RuneError, 1%nat).

(** [utf8.DecodeLastRuneInString] on the bytes of a string given in reverse
    order.  From the last byte, at most three more bytes back are searched
    for a [RuneStart] byte ([for start--; start >= lim; start--]); without
    one, decoding starts five bytes from the end, or at the beginning of a
    shorter string.  The rune is [RuneError] of width 1 unless the decoded
    encoding ends exactly at the end.  [back] is the distance from the
    starting byte to the end. *)
Definition DecodeLastRune (rl : list ascii) : Z * nat :=
  match rl with
  | [] => (RuneError, 0%nat)
  | b :: rest =>
      if byte_val b <? RuneSelf then (byte_val b, 1%nat)
      else
        let back :=
          match rest with
          | [] => 1%nat
          | b1 :: rest1 =>
              if RuneStart b1 then 2%nat else
              match rest1 with
              | [] => 2%nat
              | b2 :: rest2 =>
                  if RuneStart b2 then 3%nat else
                  match rest2 with
                  | [] => 3%nat
                  | b3 :: rest3 =>
                      if RuneStart b3 then 4%nat else
                      match rest3 with [] => 4%nat | _ => 5%nat end
                  end
              end
          end in
        match rev (take back rl) with
        | [] => (RuneError, 1%nat)
        | c :: cs =>
            let '(r, size) := DecodeRune c cs in
            if (size =? back)%nat then (r, size) else (RuneError, 1%nat)
        end
  end.

(** [utf8.EncodeRune] (and [Builder.WriteRune]): a negative rune, a
    surrogate half or a rune above [MaxRune] is written as [RuneError]. *)
Definition EncodeRune (r : Z) : list ascii :=
  if (0 <=? r) && (r <=? 0x7F) then [byte_of r]
  else if (0 <=? r) && (r <=? 0x7FF) then
    [byte_of (Z.lor 0xC0 (Z.shiftr r 6)); byte_of (Z.lor 0x80 (Z.land r 0x3F))]
  else
    let r := if (r <? 0) || (MaxRune <? r) || ((0xD800 <=? r) && (r <=? 0xDFFF))
             then RuneError else r in
    if r <=? 0xFFFF then
      [byte_of (Z.lor 0xE0 (Z.shiftr r 12)); byte_of (Z.lor 0x80 (Z.land (Z.shiftr r 6) 0x3F));
       byte_of (Z.lor 0x80 (Z.land r 0x3F))]
    else
      [byte_of (Z.lor 0xF0 (Z.shiftr r 18)); byte_of (Z.lor 0x80 (Z.land (Z.shiftr r 12) 0x3F));
       byte_of (Z.lor 0x80 (Z.land (Z.shiftr r 6) 0x3F)); byte_of (Z.lor 0x80 (Z.land r 0x3F))].

(** [unicode.IsSpace]: in Latin-1 '\t', '\n', '\v', '\f', '\r', ' ', U+0085
    and U+00A0; above it the [White_Space] table: U+1680, U+2000 to U+200A,
    U+2028, U+2029, U+202F, U+205F and U+3000. *)
Definition IsSpace (r : Z) : bool :=
  if (0 <=? r) && (r <=? 0xFF) then
    ((9 <=? r) && (r <=? 13)) || (r =? 32) || (r =? 0x85) || (r =? 0xA0)
  else
    (r =? 0x1680) || ((0x2000 <=? r) && (r <=? 0x200A)) || (r =? 0x2028) || (r =? 0x2029) ||
    (r =? 0x202F) || (r =? 0x205F) || (r =? 0x3000).

End Unicode.

(** Unicode's case tables: [unicode.To(unicode.LowerCase, r)], which
    [unicode.ToLower] consults for a rune above [MaxASCII].  They are data
    of Go's standard library (the [CaseRanges] table), outside these
    sources. *)
Class CaseTables := To_LowerCase : Z -> Z.

(** [unicode.ToLower] *)
Definition unicode_ToLower {case_tables : CaseTables} (r : Z) : Z :=
  if (r <=? 0x7F)%Z then (if ((65 <=? r) && (r <=? 90))%Z then (r + 32)%Z else r)
  else To_LowerCase r.

(** [strings.Map(mapping, s)] on the bytes of [s]: every rune, decoded as by
    [for range s] (an invalid byte is [RuneError]), is replaced by the UTF-8
    encoding of its image, dropped when the image is negative.  (Map copies
    the bytes of a rune left unchanged, which are its encoding.)  [fuel] is
    the length of the input: every step consumes at least one byte. *)
Fixpoint map_runes (mapping : Z -> Z) (fuel : nat) (l : list ascii) : list ascii :=
  match fuel, l with
  | _, [] => []
  | O, _ => l
  | S fuel', b :: bs =>
      let '(c, width) := DecodeRune b bs in
      let r := mapping c in
      ((if (0 <=? r)%Z then EncodeRune r else []) ++ map_runes mapping fuel' (drop width l))%list
  end.

Definition Map (mapping : Z -> Z) (s : string) : string :=
  string_of_list_ascii (map_runes mapping (String.length s) (list_ascii_of_string s)).

(** The ASCII path of [strings.ToLower]: 'A'..'Z' become 'a'..'z'. *)
Definition ascii_lower (a : ascii) : ascii :=
  let n := nat_of_ascii a in
  if ((65 <=? n) && (n <=? 90))%nat then ascii_of_nat (n + 32)%nat else a.

(** [strings.ToLower]: a string of ASCII bytes is lowered byte by byte,
    any other one goes through [Map(unicode.ToLower, s)]. *)
Definition ToLower {case_tables : CaseTables} (s : string) : string :=
  if forallb (fun b => (byte_val b <? RuneSelf)%Z) (list_ascii_of_string s)
  then string_of_list_ascii (map ascii_lower (list_ascii_of_string s))
  else Map unicode_ToLower s.

(** [strings.Split(s, sep)] for a one-character separator. *)
Fixpoint Split (sep : ascii) (s : string) : list string :=
  match s with
  | EmptyString => [EmptyString]
  | String a s' =>
      let rest := Split sep s' in
      if Ascii.eqb a sep then EmptyString :: rest
      else match rest with
           | [] => [String a EmptyString]
           | r :: rs => String a r :: rs
           end
  end.

(** [strings.SplitN(s, sep, 2)] for a one-character separator: [None] is the
    one-element result (no separator), [Some (l, r)] the two-element one. *)
Fixpoint SplitN2 (sep : ascii) (s : string) : option (string * string) :=
  match s with
  | EmptyString => None
  | String a s' =>
      if Ascii.eqb a sep then Some (EmptyString, s')
      else match SplitN2 sep s' with
           | None => None
           | Some (l, r) => Some (String a l, r)
           end
  end.

(** [strings.TrimLeftFunc(s, unicode.IsSpace)]: drop the leading runes that
    are spaces ([indexFunc]); [fuel] is the length of the input. *)
Fixpoint TrimLeftSpace (fuel : nat) (l : list ascii) : list ascii :=
  match fuel, l with
  | _, [] => []
  | O, _ => l
  | S fuel', b :: bs =>
      let '(r, width) := DecodeRune b bs in
      if IsSpace r then TrimLeftSpace fuel' (drop width l) else l
  end.

(** [lastIndexFunc(s, unicode.IsSpace, false)] on the first [i] bytes of
    [l]: the index of the last rune that is not a space, [None] for -1. *)
Fixpoint lastIndexNonSpace (fuel : nat) (l : list ascii) (i : nat) : option nat :=
  match fuel with
  | O => None
  | S fuel' =>
      match i with
      | O => None
      | S _ =>
          let '(r, size) := DecodeLastRune (rev (take i l)) in
          if IsSpace r then lastIndexNonSpace fuel' l (i - size) else Some (i - size)%nat
      end
  end.

(** [strings.TrimRightFunc(s, unicode.IsSpace)]: keep [s[0:i]], [i] being
    the end of the last rune that is not a space (decoded again forwards
    when it is not ASCII). *)
Definition TrimRightSpace (l : list ascii) : list ascii :=
  let i :=
    match lastIndexNonSpace (length l) l (length l) with
    | None => 0%nat
    | Some i =>
        match drop i l with
        | b :: bs => if (RuneSelf <=? byte_val b)%Z then (i + snd (DecodeRune b bs))%nat else S i
        | [] => S i
        end
    end in
  take i l.

(** [strings.TrimFunc(s, unicode.IsSpace)] *)
Definition TrimFuncSpace (l : list ascii) : list ascii :=
  TrimRightSpace (TrimLeftSpace (length l) l).

(** The first loop of [strings.TrimSpace], over ASCII spaces from the start:
    [inr] the rest at the first ASCII non-space byte (or the end), [inl] the
    rest at the first non-ASCII byte, where [TrimSpace] falls back to
    [TrimFunc(s[start:], unicode.IsSpace)]. *)
Fixpoint trim_space_start (l : list ascii) : list ascii + list ascii :=
  match l with
  | [] => inr []
  | b :: bs =>
      if (RuneSelf <=? byte_val b)%Z then inl l
      else if is_space b then trim_space_start bs else inr l
  end.

(** The second loop, over ASCII spaces from the end: the same on the bytes
    of [s[start:]] in reverse order, [inl] falling back to
    [TrimRightFunc(s[start:stop], unicode.IsSpace)]. *)
Fixpoint trim_space_stop (rl : list ascii) : list ascii + list ascii :=
  match rl with
  | [] => inr []
  | b :: bs =>
      if (RuneSelf <=? byte_val b)%Z then inl rl
      else if is_space b then trim_space_stop bs else inr rl
  end.

(** [strings.TrimSpace] *)
Definition TrimSpace (s : string) : string :=
  string_of_list_ascii
    match trim_space_start (list_ascii_of_string s) with
    | inl l => TrimFuncSpace l
    | inr l =>
        match trim_space_stop (rev l) with
        | inl rl => TrimRightSpace (rev rl)
        | inr rl => rev rl
        end
    end.

(** ** Errors *)

(** Go [error] values raised by these files, plus those of collaborators. *)
Inductive error : Type :=
| ErrInvalidFeature (feature : string)          (* "invalid feature %q: must be <domain>.<feature>" *)
| ErrUnknownDomain (domain : string)            (* "unknown feature source/domain %q" *)
| ErrFeatureNotAvailable (feature domain : string) (* "%q feature of source/domain %q not available" *)
| ErrInvalidTemplate (e : error)                (* "invalid template: %w" *)
| ErrLegacyRule (name : string) (e : error)     (* "failed to execute legacy rule %s: %w" *)
| ErrRule (name : string) (e : error)           (* "failed to execute rule %s: %w" *)
| ErrEmptyRule                                  (* "BUG: an empty rule, this really should not happen" *)
| ErrExternal (msg : string).                   (* raised by a collaborator *)

(** ** Feature snapshot (pkg/api/feature) *)

Record DomainFeatures := {
  Keys : gmap string (gset string);                      (* KeyFeatureSet.Elements *)
  Values : gmap string (gmap string string);             (* ValueFeatureSet.Elements *)
  Instances : gmap string (list (gmap string string))    (* InstanceFeatureSet: attribute maps *)
}.

Abbreviation MatchedElement := (gmap string string).

(** [matchedFeatures]: domain -> feature -> matched elements. *)
Abbreviation matchedFeatures := (gmap string (gmap string (list MatchedElement))).

(** The match-expression evaluator ([MatchExpressionSet.MatchGetKeys] and
    siblings of the nfd API package). *)
Class MatchExpressionEval (MatchExpressionSet : Type) := {
  MatchGetKeys : MatchExpressionSet -> gset string -> list MatchedElement * option error;
  MatchGetValues : MatchExpressionSet -> gmap string string -> list MatchedElement * option error;
  MatchGetInstances : MatchExpressionSet -> list (gmap string string) -> list MatchedElement * option error
}.

(** Go's text/template with "missingkey=error": parsing and execution. *)
Class TemplateEngine (Template : Type) := {
  template_Parse : string -> Template + error;
  template_Execute : Template -> matchedFeatures -> string * option error
}.

(** The [legacyRule] interface: [Match() (bool, error)]. *)
Class legacyRule (A : Type) := Match : A -> bool * option error.

(** ** FeatureMatcher (identical in custom.go and v1alpha1/rule.go) *)

Section Matcher.
Context {MatchExpressionSet : Type} `{!MatchExpressionEval MatchExpressionSet} {case_tables : CaseTables}.

Record FeatureMatcherTerm := {
  Feature : string;
  MatchExpressions : MatchExpressionSet
}.

Definition FeatureMatcher := list FeatureMatcherTerm.

Record MatchAnyElem := { MatchAnyFeatures : FeatureMatcher }.

(** Resolution of [featureName] in a domain: keys, then values, then
    instances; [None] when it is in none of them. *)
Definition lookup_feature (df : DomainFeatures) (featureName : string)
    (mes : MatchExpressionSet) : option (list MatchedElement * option error) :=
  match Keys df !! featureName with
  | Some f => Some (MatchGetKeys mes f)
  | None =>
      match Values df !! featureName with
      | Some f => Some (MatchGetValues mes f)
      | None =>
          match Instances df !! featureName with
          | Some f => Some (MatchGetInstances mes f)
          | None => None
          end
      end
  end.

(** First half of the loop body: split the reference, find the domain and
    the feature, evaluate the expressions.  [inr] is an early [return nil, err]. *)
Definition eval_term (features : gmap string DomainFeatures) (term : FeatureMatcherTerm)
    : (string * string * (list MatchedElement * option error)) + error :=
  match SplitN2 "." (Feature term) with
  | None => inr (ErrInvalidFeature (Feature term))
  | Some (domain, rest) =>
      let featureName := ToLower rest in
      match features !! domain with
      | None => inr (ErrUnknownDomain domain)
      | Some domainFeatures =>
          match lookup_feature domainFeatures featureName (MatchExpressions term) with
          | None => inr (ErrFeatureNotAvailable featureName domain)
          | Some r => inl (domain, featureName, r)
          end
      end
  end.

(** [ret[domain][featureName] = v], creating [ret[domain]] if needed. *)
Definition record_match (ret : matchedFeatures) (domain featureName : string)
    (v : list MatchedElement) : matchedFeatures :=
  <[domain := <[featureName := v]> (default ∅ (ret !! domain))]> ret.

(** The loop "Logical AND over the terms". *)
Fixpoint match_terms (features : gmap string DomainFeatures) (terms : FeatureMatcher)
    (ret : matchedFeatures) : option matchedFeatures * option error :=
  match terms with
  | [] => (Some ret, None)
  | term :: terms' =>
      match eval_term features term with
      | inr err => (None, Some err)
      | inl (domain, featureName, (v, e)) =>
          let ret := record_match ret domain featureName v in
          let m := bool_decide (0 < length v)%nat in
          match e with
          | Some e => (None, Some e)
          | None => if m then match_terms features terms' ret else (None, None)
          end
      end
  end.

(** [func (m *FeatureMatcher) match(features) (matchedFeatures, error)] *)
Definition FeatureMatcher_match (features : gmap string DomainFeatures) (m : FeatureMatcher)
    : option matchedFeatures * option error :=
  match_terms features m ∅.

(** [func (e *MatchAnyElem) match(features)] *)
Definition MatchAnyElem_match (features : gmap string DomainFeatures) (e : MatchAnyElem)
    : option matchedFeatures * option error :=
  FeatureMatcher_match features (MatchAnyFeatures e).

(** A term that resolves (valid reference, known domain and feature) and
    whose expressions evaluate without error. *)
Definition term_resolves (features : gmap string DomainFeatures) (t : FeatureMatcherTerm) : Prop :=
  exists domain featureName v, eval_term features t = inl (domain, featureName, (v, None)).

(** A term that resolves and matches at least one element. *)
Definition term_matches (features : gmap string DomainFeatures) (t : FeatureMatcherTerm) : Prop :=
  exists domain featureName v,
    eval_term features t = inl (domain, featureName, (v, None)) /\ v <> [].


End Matcher.

Arguments FeatureMatcherTerm : clear implicits.
Arguments FeatureMatcher : clear implicits.
Arguments MatchAnyElem : clear implicits.

(** ** Rules of both dialects *)

Section Rules.
Context {MatchExpressionSet Template : Type}.

(** [Rule] (modern dialect).  [labelsTemplate] is the unexported compiled
    template: [*template.Template] in custom.go, [*templateHelper] in
    v1alpha1; [None] is the nil pointer. *)
Record Rule := {
  Name : string;
  Labels : gmap string string;
  LabelsTemplate : string;
  MatchFeatures : FeatureMatcher MatchExpressionSet;
  MatchAny : list (MatchAnyElem MatchExpressionSet);
  labelsTemplate : option Template
}.

Definition set_labelsTemplate (r : Rule) (t : option Template) : Rule :=
  {| Name := Name r; Labels := Labels r; LabelsTemplate := LabelsTemplate r;
     MatchFeatures := MatchFeatures r; MatchAny := MatchAny r; labelsTemplate := t |}.

End Rules.

Arguments Rule : clear implicits.

(** Lines of a template output, as both files parse them: split on '\n',
    [TrimSpace] each line, skip empty lines, [SplitN(trimmed, "=", 2)].
    [noValue] is what a line without '=' maps to. *)
Definition parse_line (noValue : string) (out : gmap string string) (item : string)
    : gmap string string :=
  let trimmed := TrimSpace item in
  if String.eqb trimmed "" then out
  else match SplitN2 "=" trimmed with
       | None => <[trimmed := noValue]> out
       | Some (k, v) => <[k := v]> out
       end.

Definition parse_lines (noValue : string) (expanded : string)
    (out : gmap string string) : gmap string string :=
  fold_left (parse_line noValue) (Split newline expanded) out.

(** *** source/custom/custom.go *)
Module Custom.
Section Custom.
Context {MatchExpressionSet Template : Type}
  `{!MatchExpressionEval MatchExpressionSet} {case_tables : CaseTables} `{!TemplateEngine Template}.

Abbreviation Rule := (Rule MatchExpressionSet Template).

(** [func (r *Rule) executeLabelsTemplate(in matchedFeatures, out map[string]string) error]:
    [out] is the caller's map, returned updated. *)
Definition executeLabelsTemplate (r : Rule) (m : matchedFeatures)
    (out : gmap string string) : gmap string string * option error :=
  match labelsTemplate r with
  | None => (out, None)
  | Some t =>
      match template_Execute t m with
      | (_, Some err) => (out, Some err)
      | (expanded, None) => (parse_lines "true" expanded out, None)
      end
  end.

(** The "Logical OR over the matchAny matchers" loop; returns
    [(matched, ret, err)], [err] being an early [return nil, err]. *)
Fixpoint matchAny_loop (r : Rule) (features : gmap string DomainFeatures)
    (alts : list (MatchAnyElem MatchExpressionSet)) (matched : bool)
    (ret : gmap string string) : bool * gmap string string * option error :=
  match alts with
  | [] => (matched, ret, None)
  | matcher :: alts' =>
      match MatchAnyElem_match features matcher with
      | (_, Some err) => (matched, ret, Some err)
      | (None, None) => matchAny_loop r features alts' matched ret
      | (Some m, None) =>
          match labelsTemplate r with
          | None => (true, ret, None)    (* break *)
          | Some _ =>
              match executeLabelsTemplate r m ret with
              | (ret', Some err) => (true, ret', Some err)
              | (ret', None) => matchAny_loop r features alts' true ret'
              end
          end
      end
  end.

(** The tail of [Rule.execute]: [MatchFeatures], then the static labels. *)
Definition execute_matchFeatures (r : Rule) (features : gmap string DomainFeatures)
    (ret : gmap string string) : option (gmap string string) * option error :=
  let finish ret := (Some (Labels r ∪ ret), None) in   (* for k, v := range r.Labels { ret[k] = v } *)
  match MatchFeatures r with
  | [] => finish ret
  | _ =>
      match FeatureMatcher_match features (MatchFeatures r) with
      | (_, Some err) => (None, Some err)
      | (None, None) => (None, None)
      | (Some m, None) =>
          match executeLabelsTemplate r m ret with
          | (_, Some err) => (None, Some err)
          | (ret', None) => finish ret'
          end
      end
  end.

(** [func (r *Rule) execute(features) (map[string]string, error)] *)
Definition execute (r : Rule) (features : gmap string DomainFeatures)
    : option (gmap string string) * option error :=
  let ret := ∅ in
  match MatchAny r with
  | [] => execute_matchFeatures r features ret
  | alts =>
      match matchAny_loop r features alts false ret with
      | (_, _, Some err) => (None, Some err)
      | (false, _, None) => (None, None)
      | (true, ret', None) => execute_matchFeatures r features ret'
      end
  end.

(** Template compilation of [customSource.SetConfig] for one rule:
    [template.Must] panics on a parse error ([None] here). *)
Definition compile_rule (r : Rule) : option Rule :=
  if String.eqb (LabelsTemplate r) "" then Some r
  else match template_Parse (LabelsTemplate r) with
       | inl t => Some (set_labelsTemplate r (Some t))
       | inr _ => None
       end.

End Custom.
End Custom.

(** *** pkg/apis/nfd/v1alpha1/rule.go *)
Module V1alpha1.
Section V1alpha1.
Context {MatchExpressionSet Template : Type}
  `{!MatchExpressionEval MatchExpressionSet} {case_tables : CaseTables} `{!TemplateEngine Template}.

Abbreviation Rule := (Rule MatchExpressionSet Template).

(** [func newTemplateHelper(name string) (templateHelper pointer, error)] *)
Definition newTemplateHelper (text : string) : Template + error :=
  match template_Parse text with
  | inl t => inl t
  | inr err => inr (ErrInvalidTemplate err)
  end.

(** [func (h *templateHelper) expandMap(data interface{}) (map[string]string, error)] *)
Definition expandMap (h : Template) (data : matchedFeatures)
    : option (gmap string string) * option error :=
  match template_Execute h data with
  | (_, Some err) => (None, Some err)
  | (expanded, None) => (Some (parse_lines "" expanded ∅), None)
  end.

(** [func (r *Rule) executeLabelsTemplate(in matchedFeatures, out map[string]string) error]:
    the template is compiled lazily and cached in [r.labelsTemplate], so the
    rule is returned along with [out]. *)
Definition executeLabelsTemplate (r : Rule) (m : matchedFeatures)
    (out : gmap string string) : Rule * (gmap string string * option error) :=
  if String.eqb (LabelsTemplate r) "" then (r, (out, None))
  else
    let cached :=
      match labelsTemplate r with
      | Some t => inl (r, t)
      | None =>
          match newTemplateHelper (LabelsTemplate r) with
          | inr err => inr err
          | inl t => inl (set_labelsTemplate r (Some t), t)
          end
      end in
    match cached with
    | inr err => (r, (out, Some err))
    | inl (r', t) =>
        match expandMap t m with
        | (_, Some err) => (r', (out, Some err))
        | (labels, None) => (r', (default ∅ labels ∪ out, None))  (* out[k] = v *)
        end
    end.

(** The "Logical OR over the matchAny matchers" loop of [Rule.Execute]. *)
Fixpoint matchAny_loop (r : Rule) (features : gmap string DomainFeatures)
    (alts : list (MatchAnyElem MatchExpressionSet)) (matched : bool)
    (ret : gmap string string) : Rule * (bool * gmap string string * option error) :=
  match alts with
  | [] => (r, (matched, ret, None))
  | matcher :: alts' =>
      match MatchAnyElem_match features matcher with
      | (_, Some err) => (r, (matched, ret, Some err))
      | (None, None) => matchAny_loop r features alts' matched ret
      | (Some m, None) =>
          match labelsTemplate r with
          | None => (r, (true, ret, None))    (* break *)
          | Some _ =>
              match executeLabelsTemplate r m ret with
              | (r', (ret', Some err)) => (r', (true, ret', Some err))
              | (r', (ret', None)) => matchAny_loop r' features alts' true ret'
              end
          end
      end
  end.

Definition Execute_matchFeatures (r : Rule) (features : gmap string DomainFeatures)
    (ret : gmap string string) : Rule * (option (gmap string string) * option error) :=
  let finish r ret := (r, (Some (Labels r ∪ ret), None)) in
  match MatchFeatures r with
  | [] => finish r ret
  | _ =>
      match FeatureMatcher_match features (MatchFeatures r) with
      | (_, Some err) => (r, (None, Some err))
      | (None, None) => (r, (None, None))
      | (Some m, None) =>
          match executeLabelsTemplate r m ret with
          | (r', (_, Some err)) => (r', (None, Some err))
          | (r', (ret', None)) => finish r' ret'
          end
      end
  end.

(** [func (r *Rule) Execute(features) (map[string]string, error)]; the
    rule after the call (its template cache) comes first. *)
Definition Execute (r : Rule) (features : gmap string DomainFeatures)
    : Rule * (option (gmap string string) * option error) :=
  let ret := ∅ in
  match MatchAny r with
  | [] => Execute_matchFeatures r features ret
  | alts =>
      match matchAny_loop r features alts false ret with
      | (r', (_, _, Some err)) => (r', (None, Some err))
      | (r', (false, _, None)) => (r', (None, None))
      | (r', (true, ret', None)) => Execute_matchFeatures r' features ret'
      end
  end.

End V1alpha1.
End V1alpha1.

(** ** Legacy rules, the combined rule and the custom source *)

Section Legacy.
Context {MatchExpressionSet Template : Type}
  `{!MatchExpressionEval MatchExpressionSet} {case_tables : CaseTables} `{!TemplateEngine Template}.
Context {PciIDRule UsbIDRule LoadedKModRule CpuIDRule KconfigRule NodenameRule : Type}
  `{!legacyRule PciIDRule} `{!legacyRule UsbIDRule} `{!legacyRule LoadedKModRule}
  `{!legacyRule CpuIDRule} `{!legacyRule KconfigRule} `{!legacyRule NodenameRule}.

(** [LegacyMatcher]: six optional sub-rules ([None] = nil pointer). *)
Record LegacyMatcher := {
  PciID : option PciIDRule;
  UsbID : option UsbIDRule;
  LoadedKMod : option LoadedKModRule;
  CpuID : option CpuIDRule;
  Kconfig : option KconfigRule;
  Nodename : option NodenameRule
}.

Record LegacyRule := {
  LegacyName : string;          (* Name *)
  Value : option string;
  MatchOn : list LegacyMatcher
}.

(** [allRules]: the six slots in declaration order, each as the result of
    its [Match()] (nil slots are [None]). *)
Definition allRules (m : LegacyMatcher) : list (option (bool * option error)) :=
  [Match <$> PciID m; Match <$> UsbID m; Match <$> LoadedKMod m;
   Match <$> CpuID m; Match <$> Kconfig m; Match <$> Nodename m].

(** [matchRules]: "return true, nil if all rules match". *)
Fixpoint matchRules (rules : list (option (bool * option error))) : bool * option error :=
  match rules with
  | [] => (true, None)
  | None :: rules' => matchRules rules'       (* reflect.ValueOf(rule).IsNil(): continue *)
  | Some (mt, e) :: rules' =>
      match e with
      | Some err => (false, Some err)
      | None => if mt then matchRules rules' else (false, None)
      end
  end.

(** [func (m *LegacyMatcher) match() (bool, error)] *)
Definition LegacyMatcher_match (m : LegacyMatcher) : bool * option error :=
  matchRules (allRules m).

(** "Logical OR over the legacy rules": [(matched, err)]. *)
Fixpoint matchOn_loop (matchers : list LegacyMatcher) : bool * option error :=
  match matchers with
  | [] => (false, None)
  | matcher :: matchers' =>
      match LegacyMatcher_match matcher with
      | (_, Some err) => (false, Some err)
      | (true, None) => (true, None)     (* break *)
      | (false, None) => matchOn_loop matchers'
      end
  end.

(** [func (r *LegacyRule) execute(features) (map[string]string, error)] *)
Definition LegacyRule_execute (r : LegacyRule) (features : gmap string DomainFeatures)
    : option (gmap string string) * option error :=
  let finish :=
    let value := match Value r with Some v => v | None => "true" end in
    (Some {[LegacyName r := value]}, None) in
  match MatchOn r with
  | [] => finish
  | matchers =>
      match matchOn_loop matchers with
      | (_, Some err) => (None, Some err)
      | (false, None) => (None, None)
      | (true, None) => finish
      end
  end.

(** [CustomRule]: the embedded [*LegacyRule] and [*Rule]. *)
Record CustomRule := {
  crLegacyRule : option LegacyRule;
  crRule : option (Rule MatchExpressionSet Template)
}.

(** [func (r *CustomRule) execute(features) (map[string]string, error)] *)
Definition CustomRule_execute (r : CustomRule) (features : gmap string DomainFeatures)
    : option (gmap string string) * option error :=
  match crLegacyRule r with
  | Some lr =>
      match LegacyRule_execute lr features with
      | (_, Some err) => (None, Some (ErrLegacyRule (LegacyName lr) err))
      | (ruleOut, None) => (ruleOut, None)
      end
  | None =>
      match crRule r with
      | Some rr =>
          match Custom.execute rr features with
          | (_, Some err) => (None, Some (ErrRule (Name rr) err))
          | (ruleOut, None) => (ruleOut, None)
          end
      | None => (None, Some ErrEmptyRule)
      end
  end.

(** The "Iterate over features" loop of [GetLabels]; the errors passed to
    [klog.Error] are collected in [log]. *)
Fixpoint GetLabels_loop (features : gmap string DomainFeatures) (rules : list CustomRule)
    (labels : gmap string string) (log : list error) : gmap string string * list error :=
  match rules with
  | [] => (labels, log)
  | rule :: rules' =>
      match CustomRule_execute rule features with
      | (_, Some err) => GetLabels_loop features rules' labels (log ++ [err])%list   (* continue *)
      | (ruleOut, None) =>
          (* for n, v := range ruleOut { labels[n] = v } *)
          GetLabels_loop features rules' (default ∅ ruleOut ∪ labels) log
      end
  end.

(** [func (s *customSource) GetLabels() (source.FeatureLabels, error)]:
    [domainFeatures] is what the registered sources report, [staticConfig]
    and [directoryConfig] what [getStaticFeatureConfig] and
    [getDirectoryFeatureConfig] return.  The log comes second. *)
Definition GetLabels (domainFeatures : gmap string DomainFeatures)
    (staticConfig config directoryConfig : list CustomRule)
    : (option (gmap string string) * option error) * list error :=
  let allFeatureConfig := (staticConfig ++ config ++ directoryConfig)%list in
  let '(labels, log) := GetLabels_loop domainFeatures allFeatureConfig ∅ [] in
  ((Some labels, None), log).

(** The YAML/JSON library calls of [UnmarshalJSON] and [MarshalJSON].
    Decoding into a pointer receives the pointer's current value. *)
Class RuleCodec := {
  yaml_Unmarshal_raw : string -> gmap string string + error;   (* into map[string]json.RawMessage *)
  yaml_Unmarshal_LegacyRule : string -> option LegacyRule -> option LegacyRule * option error;
  yaml_Unmarshal_Rule : string -> option (Rule MatchExpressionSet Template) ->
                        option (Rule MatchExpressionSet Template) * option error;
  json_Marshal_LegacyRule : LegacyRule -> string * option error;
  json_Marshal_Rule : Rule MatchExpressionSet Template -> string * option error
}.

(** encoding/json on a pointer: "Nil pointer values encode as the JSON null". *)
Definition json_Marshal_ptr {A : Type} (enc : A -> string * option error) (p : option A)
    : string * option error :=
  match p with
  | None => ("null", None)
  | Some a => enc a
  end.

Context `{!RuleCodec}.

(** [func (c *CustomRule) UnmarshalJSON(data []byte) error] *)
Definition UnmarshalJSON (c : CustomRule) (data : string) : CustomRule * option error :=
  match yaml_Unmarshal_raw data with
  | inr err => (c, Some err)
  | inl raw =>
      if existsb (fun kv => String.eqb (ToLower kv.1) "matchon") (map_to_list raw)
      then let '(lr, err) := yaml_Unmarshal_LegacyRule data (crLegacyRule c) in
           ({| crLegacyRule := lr; crRule := crRule c |}, err)
      else let '(rr, err) := yaml_Unmarshal_Rule data (crRule c) in
           ({| crLegacyRule := crLegacyRule c; crRule := rr |}, err)
  end.

(** [func (c *CustomRule) MarshalJSON() ([]byte, error)] *)
Definition MarshalJSON (c : CustomRule) : string * option error :=
  match crLegacyRule c with
  | Some lr => json_Marshal_ptr json_Marshal_LegacyRule (Some lr)
  | None => json_Marshal_ptr json_Marshal_Rule (crRule c)
  end.

End Legacy.

(** *** source/custom/custom.go: [customSource.SetConfig] *)

Section SourceConfig.
Context {MatchExpressionSet Template : Type} `{!TemplateEngine Template}.
Context {PciIDRule UsbIDRule LoadedKModRule CpuIDRule KconfigRule NodenameRule : Type}.

Local Abbreviation CustomRule :=
  (@CustomRule MatchExpressionSet Template PciIDRule UsbIDRule LoadedKModRule CpuIDRule
     KconfigRule NodenameRule).

(** [func (s *customSource) SetConfig(c source.Config)] for a [*config]:
    the "Parse template rules" loop, which stores in every modern rule with
    a non-empty [LabelsTemplate] its compiled template, then the new
    [s.config].  [None] is the panic of [template.Must] on a template that
    does not parse: no config is set. *)
Fixpoint SetConfig (conf : list CustomRule) : option (list CustomRule) :=
  match conf with
  | [] => Some []
  | spec :: conf' =>
      let spec' :=
        match crRule spec with
        | Some r =>        (* spec.Rule != nil && spec.Rule.LabelsTemplate != "" *)
            match Custom.compile_rule r with
            | Some r' => Some {| crLegacyRule := crLegacyRule spec; crRule := Some r' |}
            | None => None
            end
        | None => Some spec
        end in
      match spec' with
      | None => None
      | Some spec' =>
          match SetConfig conf' with
          | None => None
          | Some rest => Some (spec' :: rest)
          end
      end
  end.

End SourceConfig.

(** The labels accumulated by the custom source's MatchAny loop when the
    rule has the compiled template [t]: the output of [t] on the matched
    features of every matching alternative, parsed in order over the
    labels of the previous ones. *)
Definition matchAny_accumulate {MatchExpressionSet Template : Type}
    `{!MatchExpressionEval MatchExpressionSet} {case_tables : CaseTables} `{!TemplateEngine Template}
    (t : Template) (features : gmap string DomainFeatures)
    (alts : list (MatchAnyElem MatchExpressionSet)) (ret : gmap string string)
    : gmap string string :=
  fold_left (fun acc a =>
               match MatchAnyElem_match features a with
               | (Some m, _) => parse_lines "true" (fst (template_Execute t m)) acc
               | (None, _) => acc
               end) alts ret.

(** A string none of whose characters is [c]. *)
Definition has_no (c : ascii) (s : string) : bool :=
  forallb (fun a => negb (Ascii.eqb a c)) (list_ascii_of_string s).

(** The shape of a label parsed from a template output line: its key has
    no '=' and no newline, its value no newline. *)
Definition label_shape (k v : string) : Prop :=
  has_no "=" k = true /\ has_no newline k = true /\ has_no newline v = true.

(** *** pkg/apis/nfd/v1alpha1: the text-returning [executeLabelsTemplate]

    The second version of the template helpers of the package, whose
    [Rule.executeLabelsTemplate] returns the template's text. *)
Module V1alpha1Text.
Section V1alpha1Text.
Context {MatchExpressionSet Template : Type} `{!TemplateEngine Template}.

Abbreviation Rule := (Rule MatchExpressionSet Template).

(** [func (h *templateHelper) execute(data interface{}) (string, error)] *)
Definition execute (h : Template) (data : matchedFeatures) : string * option error :=
  match template_Execute h data with
  | (_, Some err) => ("", Some err)
  | (s, None) => (s, None)
  end.

(** [func (r *Rule) executeLabelsTemplate(data interface{}) (string, error)]:
    the rule after the call (its template cache) comes first. *)
Definition executeLabelsTemplate (r : Rule) (data : matchedFeatures)
    : Rule * (string * option error) :=
  if String.eqb (LabelsTemplate r) "" then (r, ("", None))
  else
    match labelsTemplate r with
    | Some t => (r, execute t data)
    | None =>
        match V1alpha1.newTemplateHelper (LabelsTemplate r) with
        | inr err => (r, ("", Some err))
        | inl t => (set_labelsTemplate r (Some t), execute t data)
        end
    end.

End V1alpha1Text.
End V1alpha1Text.

Section RuleUpdates.
Context {MatchExpressionSet Template : Type}
  `{!MatchExpressionEval MatchExpressionSet} {case_tables : CaseTables} `{!TemplateEngine Template}.

(** [r'] is [r] with at most its template cache filled in: a cache already
    set is kept, an unset one stays unset or receives the compiled
    [LabelsTemplate]. *)
Definition fills (r r' : Rule MatchExpressionSet Template) : Prop :=
  exists o, r' = set_labelsTemplate r o /\
    (forall t, labelsTemplate r = Some t -> o = Some t) /\
    (labelsTemplate r = None ->
       o = None \/ exists t, o = Some t /\ template_Parse (LabelsTemplate r) = inl t).

(** A MatchAny alternative that matches: [m != nil]. *)
Definition alt_matches (features : gmap string DomainFeatures)
    (a : MatchAnyElem MatchExpressionSet) : bool :=
  bool_decide (is_Some (fst (MatchAnyElem_match features a))).

End RuleUpdates.

(** *** source/custom/rules: the kconfig and nodename legacy rules *)
Module Rules.

(** [kconfig]: one "NAME=VALUE" entry of a [KconfigRule]. *)
Record kconfig := { Name : string; Value : string }.

Definition KconfigRule := list kconfig.

(** The loop of [KconfigRule.Match] over the kernel config options. *)
Fixpoint match_kconfigs (features : gmap string string) (kconfigs : KconfigRule) : bool :=
  match kconfigs with
  | [] => true
  | f :: kconfigs' =>
      match features !! Name f with
      | Some v => if String.eqb (Value f) v then match_kconfigs features kconfigs' else false
      | None => false                                  (* !ok *)
      end
  end.

(** [func (kconfigs *KconfigRule) Match() (bool, error)]: [options] is the
    lookup [source.GetFeatureSource("kernel").GetFeatures().Values[kernel.ConfigFeature]],
    [None] when not [ok], otherwise its [Features] map. *)
Definition KconfigRule_Match (options : option (gmap string string)) (kconfigs : KconfigRule)
    : bool * option error :=
  match options with
  | None => (false, Some (ErrExternal "kernel config options not available"))
  | Some o => (match_kconfigs o kconfigs, None)
  end.

(** [func (c *kconfig) UnmarshalJSON(data []byte) error]: [json_Unmarshal]
    is [json.Unmarshal] into a [string]; the entry after the call comes
    first. *)
Definition kconfig_UnmarshalJSON (json_Unmarshal : string -> string + error)
    (c : kconfig) (data : string) : kconfig * option error :=
  match json_Unmarshal data with
  | inr err => (c, Some err)
  | inl raw =>
      match SplitN2 "=" raw with
      | None => ({| Name := raw; Value := "true" |}, None)
      | Some (n, v) => ({| Name := n; Value := v |}, None)
      end
  end.

(** [NodenameRule]: regular expressions on the node name. *)
Definition NodenameRule := list string.

(** The loop of [NodenameRule.Match]; [MatchString] is
    [regexp.MatchString(pattern, s)]. *)
Fixpoint nodename_loop (MatchString : string -> string -> bool * option error)
    (nodeName : string) (n : NodenameRule) : bool :=
  match n with
  | [] => false
  | nodenamePattern :: n' =>
      match MatchString nodenamePattern nodeName with
      | (_, Some _) => nodename_loop MatchString nodeName n'   (* invalid regexp: continue *)
      | (false, None) => nodename_loop MatchString nodeName n' (* no match: continue *)
      | (true, None) => true
      end
  end.

(** [func (n NodenameRule) Match() (bool, error)]: [nodeName] is the
    lookup [...Values[system.NameFeature].Features["nodename"]], [None]
    when not [ok]. *)
Definition NodenameRule_Match (MatchString : string -> string -> bool * option error)
    (nodeName : option string) (n : NodenameRule) : bool * option error :=
  match nodeName with
  | None => (false, Some (ErrExternal "node name not available"))
  | Some nm => (nodename_loop MatchString nm n, None)
  end.

End Rules.

(** *** source/kernel/kernel.go: kernel config flags *)
Module Kernel.

(** [defaultKconfigFlags] *)
Definition defaultKconfigFlags : list string := ["NO_HZ"; "NO_HZ_IDLE"; "NO_HZ_FULL"; "PREEMPT"].

(** [NFDConfig]: the [Config] global of the package. *)
Record NFDConfig := { KconfigFile : string; ConfigFlags : list string }.

(** The file-system calls of the package.  A [None] data is a nil slice. *)
Record OS := {
  ReadFile : string -> option string * option error;   (* ioutil.ReadFile *)
  Open : string -> option error;                        (* os.Open *)
  gzipNewReader : string -> option error;               (* gzip.NewReader on the opened file *)
  ReadAll : string -> string * option error             (* ioutil.ReadAll of the gzip reader *)
}.

(** [func readKconfigGzip(filename string) ([]byte, error)]: [ReadAll]
    returns a non-nil slice, with the data read before any error. *)
Definition readKconfigGzip (os : OS) (filename : string) : option string * option error :=
  match Open os filename with
  | Some err => (None, Some err)
  | None =>
      match gzipNewReader os filename with
      | Some err => (None, Some err)
      | None => let '(data, err) := ReadAll os filename in (Some data, err)
      end
  end.

(** [\w] of Go's regexp: [0-9A-Za-z_]. *)
Definition is_word (a : ascii) : bool :=
  let n := nat_of_ascii a in
  (((48 <=? n) && (n <=? 57)) || ((65 <=? n) && (n <=? 90)) ||
   ((97 <=? n) && (n <=? 122)) || (n =? 95))%nat.

(** The longest prefix of word characters, and the rest. *)
Fixpoint span_word (s : string) : string * string :=
  match s with
  | EmptyString => (EmptyString, EmptyString)
  | String a s' =>
      if is_word a then let '(w, r) := span_word s' in (String a w, r)
      else (EmptyString, s)
  end.

(** The longest prefix without '\n' ([.] of Go's regexp), and the rest. *)
Fixpoint span_line (s : string) : string * string :=
  match s with
  | EmptyString => (EmptyString, EmptyString)
  | String a s' =>
      if Ascii.eqb a newline then (EmptyString, s)
      else let '(w, r) := span_line s' in (String a w, r)
  end.

Fixpoint strip_prefix (p s : string) : option string :=
  match p, s with
  | EmptyString, _ => Some s
  | String a p', String b s' => if Ascii.eqb a b then strip_prefix p' s' else None
  | String _ _, EmptyString => None
  end.

(** [re.FindStringSubmatch(line)] for [^CONFIG_(?P<flag>\w+)=(?P<value>.+)]:
    [Some (m[1], m[2])] when [m != nil].  [\w+] cannot take the '=', so the
    flag is the longest word prefix and must be followed by '='; the value
    is the longest following run without '\n', which must not be empty. *)
Definition kconfig_re (line : string) : option (string * string) :=
  match strip_prefix "CONFIG_" line with
  | None => None
  | Some rest =>
      match span_word rest with
      | (EmptyString, _) => None
      | (flag, String a after) =>
          if Ascii.eqb a "=" then
            match span_line after with
            | (EmptyString, _) => None
            | (value, _) => Some (flag, value)
            end
          else None
      | (_, EmptyString) => None
      end
  end.

(** One iteration of the "Process data, line-by-line" loop. *)
Definition parse_kconfig_line (kconfig : gmap string bool) (line : string) : gmap string bool :=
  match kconfig_re line with
  | Some (flag, value) =>
      if String.eqb value "y" || String.eqb value "m" then <[flag := true]> kconfig else kconfig
  | None => kconfig
  end.

(** The loop over [bytes.Split(raw, []byte("\n"))]. *)
Definition parse_kconfig_raw (raw : string) : gmap string bool :=
  fold_left parse_kconfig_line (Split newline raw) ∅.

(** [func parseKconfig() (map[string]bool, error)]: the configured file,
    then /proc/config.gz, then /boot/config-<release>; the errors of the
    first two reads are only logged. *)
Definition parseKconfig (os : OS) (Config : NFDConfig) : option (gmap string bool) * option error :=
  let raw :=
    if (0 <? String.length (KconfigFile Config))%nat then fst (ReadFile os (KconfigFile Config))
    else None in
  let raw := match raw with None => fst (readKconfigGzip os "/proc/config.gz") | Some _ => raw end in
  let raw :=
    match raw with
    | Some r => inl r
    | None =>
        let '(unameRaw, err) := ReadFile os "/proc/sys/kernel/osrelease" in
        let uname := TrimSpace (default "" unameRaw) in
        match err with
        | Some err => inr err
        | None =>
            match ReadFile os ("/boot/config-" ++ uname) with
            | (_, Some err) => inr err
            | (raw, None) => inl (default "" raw)
            end
        end
    end in
  match raw with
  | inr err => (None, Some err)
  | inl raw => (Some (parse_kconfig_raw raw), None)
  end.

(** The "Check flags" loop of [Discover]. *)
Fixpoint discover_loop (kconfig : gmap string bool) (enabledFlags features : list string)
    : list string :=
  match enabledFlags with
  | [] => features
  | flag :: flags' =>
      match kconfig !! flag with
      | Some _ => discover_loop kconfig flags' (app features ["config-" ++ flag])
      | None => discover_loop kconfig flags' features
      end
  end.

(** [func (s Source) Discover() ([]string, error)]: a failed
    [parseKconfig] leaves [kconfig] nil, a map with no entry. *)
Definition Discover (os : OS) (Config : NFDConfig) : list string * option error :=
  let kconfig := default ∅ (fst (parseKconfig os Config)) in
  let enabledFlags :=
    match ConfigFlags Config with
    | [] => defaultKconfigFlags
    | flags => flags
    end in
  (discover_loop kconfig enabledFlags [], None).

End Kernel.

(** A string of [\w] characters. *)
Definition word (s : string) : bool := forallb Kernel.is_word (list_ascii_of_string s).

(** ** Concrete collaborators, to run the development on concrete inputs *)

(** A template whose text has no actions: text/template writes such a
    text out unchanged, whatever the data. *)
Record TextTemplate := { template_text : string }.

#[export] Instance text_template_engine : TemplateEngine TextTemplate := {
  template_Parse s := inl {| template_text := s |};
  template_Execute t _ := (template_text t, None)
}.

(** Modelled from the spec: the match-expression evaluator of the nfd API
    package (missing from the sources), for the operators [Exists],
    [DoesNotExist], [In] and [NotIn] (section 3 of the spec: a Match
    Expression Set is the AND of its named expressions and returns the
    matched subset). *)
Inductive MatchOp := MatchExists | MatchDoesNotExist | MatchIn | MatchNotIn.

Record MatchExpression := { Op : MatchOp; MatchValue : list string }.

Definition MatchExpressionList := list (string * MatchExpression).

(** Modelled from the spec: one expression against a key set. *)
Definition match_key_expr (n : string) (e : MatchExpression) (keys : gset string)
    : bool * option error :=
  match Op e with
  | MatchExists => (bool_decide (n ∈ keys), None)
  | MatchDoesNotExist => (bool_decide (n ∉ keys), None)
  | _ => (false, Some (ErrExternal "invalid Op for key features"))
  end.

(** Modelled from the spec: one expression against an attribute map. *)
Definition match_value_expr (n : string) (e : MatchExpression) (values : gmap string string)
    : bool * option error :=
  match Op e, values !! n with
  | MatchExists, v => (bool_decide (is_Some v), None)
  | MatchDoesNotExist, v => (bool_decide (v = None), None)
  | MatchIn, Some v => (bool_decide (v ∈ MatchValue e), None)
  | MatchNotIn, Some v => (bool_decide (v ∉ MatchValue e), None)
  | _, None => (false, None)
  end.

(** Modelled from the spec: logical AND over the named expressions. *)
Fixpoint all_match (eval : string -> MatchExpression -> bool * option error)
    (mes : MatchExpressionList) : bool * option error :=
  match mes with
  | [] => (true, None)
  | (n, e) :: mes' =>
      match eval n e with
      | (_, Some err) => (false, Some err)
      | (false, None) => (false, None)
      | (true, None) => all_match eval mes'
      end
  end.

(** Modelled from the spec: the matched instances of an instance set. *)
Fixpoint match_instances (mes : MatchExpressionList) (insts : list (gmap string string))
    : list MatchedElement * option error :=
  match insts with
  | [] => ([], None)
  | i :: insts' =>
      match all_match (fun n e => match_value_expr n e i) mes with
      | (_, Some err) => ([], Some err)
      | (b, None) =>
          match match_instances mes insts' with
          | (_, Some err) => ([], Some err)
          | (rest, None) => (if b then i :: rest else rest, None)
          end
      end
  end.

#[export] Instance spec_expression_eval : MatchExpressionEval MatchExpressionList := {
  MatchGetKeys mes keys :=
    match all_match (fun n e => match_key_expr n e keys) mes with
    | (true, None) => (map (fun ne => {["Name" := ne.1]}) mes, None)
    | (_, err) => ([], err)
    end;
  MatchGetValues mes values :=
    match all_match (fun n e => match_value_expr n e values) mes with
    | (true, None) =>
        (map (fun ne => <["Name" := ne.1]> {["Value" := default "" (values !! ne.1)]}) mes, None)
    | (_, err) => ([], err)
    end;
  MatchGetInstances := match_instances
}.

(** The Latin-1 rows of Go's case tables: U+00C0 to U+00D6 and U+00D8 to
    U+00DE lower to the rune 32 above.  Other runes are left as they are,
    which covers the names of the examples below. *)
#[export] Instance latin1_case_tables : CaseTables := fun r =>
  if ((0xC0 <=? r) && (r <=? 0xD6) || (0xD8 <=? r) && (r <=? 0xDE))%Z then (r + 32)%Z else r.

(** A legacy sub-rule whose probe outcome is given. *)
Record ProbedRule := { probe_result : bool * option error }.

#[export] Instance probed_rule_match : legacyRule ProbedRule := probe_result.

(** A codec for documents that list their top-level keys, one per line. *)
#[export] Instance key_lines_codec
  : @RuleCodec MatchExpressionList TextTemplate ProbedRule ProbedRule ProbedRule
      ProbedRule ProbedRule ProbedRule := {
  yaml_Unmarshal_raw data := inl (list_to_map ((fun k => (k, "")) <$> Split newline data));
  yaml_Unmarshal_LegacyRule data _ :=
    (Some {| LegacyName := data; Value := None; MatchOn := [] |}, None);
  yaml_Unmarshal_Rule data _ :=
    (Some {| Name := data; Labels := ∅; LabelsTemplate := ""; MatchFeatures := [];
             MatchAny := []; labelsTemplate := None |}, None);
  json_Marshal_LegacyRule lr := (LegacyName lr, None);
  json_Marshal_Rule r := (Name r, None)
}.

(** *** Concrete inputs *)

(** "\n" and a term helper. *)
Definition nl : string := String newline EmptyString.

Definition term (f : string) (mes : MatchExpressionList) : FeatureMatcherTerm MatchExpressionList :=
  {| Feature := f; MatchExpressions := mes |}.

Definition exists_expr : MatchExpression := {| Op := MatchExists; MatchValue := [] |}.

(** The snapshot of the spec's scenarios: domain "domain-1" with the key
    feature "kf-1" = {"key-1"} and the value feature "vf-1" = [vf1]. *)
Definition snapshot (vf1 : gmap string string) : gmap string DomainFeatures :=
  {[ "domain-1" := {| Keys := {[ "kf-1" := {[ "key-1" ]} ]};
                      Values := {[ "vf-1" := vf1 ]};
                      Instances := ∅ |} ]}.

(** The template output of the spec's parsing example: "a=1\nb\n\n  \n". *)
Definition example_output : string := "a=1" ++ nl ++ "b" ++ nl ++ nl ++ "  " ++ nl.

(** The spec's value scenario: rule with static label "label-3" and the
    term "domain-1.vf-1" requiring key-1 In [val-1]. *)
Definition rule_label3 : Rule MatchExpressionList TextTemplate :=
  {| Name := "r3"; Labels := {[ "label-3" := "label-val-3" ]}; LabelsTemplate := "";
     MatchFeatures := [term "domain-1.vf-1" [("key-1", {| Op := MatchIn; MatchValue := ["val-1"] |})]];
     MatchAny := []; labelsTemplate := None |}.

(** A rule with one MatchAny alternative (key-1 exists in domain-1.kf-1),
    the label template "a=1", no MatchFeatures, not yet compiled. *)
Definition rule_matchany_template : Rule MatchExpressionList TextTemplate :=
  {| Name := "any"; Labels := ∅; LabelsTemplate := "a=1"; MatchFeatures := [];
     MatchAny := [{| MatchAnyFeatures := [term "domain-1.kf-1" [("key-1", exists_expr)]] |}];
     labelsTemplate := None |}.

(** A rule whose first MatchAny alternative is an empty matcher and whose
    second names the domain "missing", absent from every snapshot here. *)
Definition rule_shadowed_domain : Rule MatchExpressionList TextTemplate :=
  {| Name := "shadow"; Labels := {[ "l" := "v" ]}; LabelsTemplate := ""; MatchFeatures := [];
     MatchAny := [{| MatchAnyFeatures := [] |};
                  {| MatchAnyFeatures := [term "missing.feature" [("key-1", exists_expr)]] |}];
     labelsTemplate := None |}.

(** A rule whose MatchFeatures names the absent domain "missing". *)
Definition rule_missing_domain : Rule MatchExpressionList TextTemplate :=
  {| Name := "missing"; Labels := {[ "l" := "v" ]}; LabelsTemplate := "";
     MatchFeatures := [term "missing.feature" [("key-1", exists_expr)]];
     MatchAny := []; labelsTemplate := None |}.

Abbreviation CustomRule' :=
  (@CustomRule MatchExpressionList TextTemplate ProbedRule ProbedRule ProbedRule
     ProbedRule ProbedRule ProbedRule).

Abbreviation LegacyMatcher' :=
  (@LegacyMatcher ProbedRule ProbedRule ProbedRule ProbedRule ProbedRule ProbedRule).

(** A legacy matcher with every slot unset. *)
Definition empty_legacy_matcher : LegacyMatcher' :=
  {| PciID := None; UsbID := None; LoadedKMod := None; CpuID := None;
     Kconfig := None; Nodename := None |}.

(** A legacy matcher with only the pciId slot set, probing to [res]. *)
Definition pci_matcher (res : bool * option error) : LegacyMatcher' :=
  {| PciID := Some {| probe_result := res |}; UsbID := None; LoadedKMod := None;
     CpuID := None; Kconfig := None; Nodename := None |}.

(** A legacy matcher with only the kConfig slot set, probing to [res]. *)
Definition kconfig_matcher (res : bool * option error) : LegacyMatcher' :=
  {| PciID := None; UsbID := None; LoadedKMod := None; CpuID := None;
     Kconfig := Some {| probe_result := res |}; Nodename := None |}.

(** "my.custom.feature": a non-matching pciId alternative, an alternative
    with no slot set, then a kConfig alternative whose probe fails. *)
Definition legacy_rule_example : @LegacyRule ProbedRule ProbedRule ProbedRule ProbedRule
                                   ProbedRule ProbedRule :=
  {| LegacyName := "my.custom.feature"; Value := None;
     MatchOn := [pci_matcher (false, None); empty_legacy_matcher;
                 kconfig_matcher (false, Some (ErrExternal "kernel config options not available"))] |}.

(** A rule with static labels only. *)
Definition rule_static : Rule MatchExpressionList TextTemplate :=
  {| Name := "static"; Labels := {[ "label-1" := "true" ]}; LabelsTemplate := "";
     MatchFeatures := []; MatchAny := []; labelsTemplate := None |}.

(** A serialized legacy rule for [key_lines_codec]: keys "name" and "matchOn". *)
Definition legacy_document : string := "name" ++ nl ++ "matchOn".

(** A rule whose static labels set "label-1" to "false". *)
Definition rule_static_override : Rule MatchExpressionList TextTemplate :=
  {| Name := "override"; Labels := {[ "label-1" := "false" ]}; LabelsTemplate := "";
     MatchFeatures := []; MatchAny := []; labelsTemplate := None |}.

(** [rule_matchany_template] with its template compiled. *)
Definition rule_matchany_compiled : Rule MatchExpressionList TextTemplate :=
  set_labelsTemplate rule_matchany_template (Some {| template_text := "a=1" |}).

(** A custom-source config entry holding [rule_matchany_template]. *)
Definition matchany_spec : CustomRule' := {| crLegacyRule := None; crRule := Some rule_matchany_template |}.

(** A JSON decoder for documents that are the decoded string itself. *)
Definition json_identity (data : string) : string + error := inl data.

(** A name matcher accepting its pattern and nothing else (an anchored
    literal pattern). *)
Definition exact_match (pattern s : string) : bool * option error := (String.eqb pattern s, None).

(** A kernel config: NO_HZ built in, PREEMPT as a module, NO_HZ_FULL unset. *)
Definition kconfig_example : string :=
  "CONFIG_NO_HZ=y" ++ nl ++ "CONFIG_PREEMPT=m" ++ nl ++ "# CONFIG_NO_HZ_FULL is not set" ++ nl.

(** A host without /proc/config.gz, running release "6.1.0", whose
    /boot/config-6.1.0 is [kconfig_example]. *)
Definition example_os : Kernel.OS :=
  {| Kernel.ReadFile path :=
       if String.eqb path "/proc/sys/kernel/osrelease" then (Some ("6.1.0" ++ nl), None)
       else if String.eqb path "/boot/config-6.1.0" then (Some kconfig_example, None)
       else (None, Some (ErrExternal "no such file or directory"));
     Kernel.Open _ := Some (ErrExternal "no such file or directory");
     Kernel.gzipNewReader _ := None;
     Kernel.ReadAll _ := ("", None) |}.

(** The default kernel source config: no kconfig file, no flags. *)
Definition default_nfd_config : Kernel.NFDConfig :=
  {| Kernel.KconfigFile := ""; Kernel.ConfigFlags := [] |}.

(** A kernel source config naming /boot/config-6.1.0 explicitly. *)
Definition file_nfd_config : Kernel.NFDConfig :=
  {| Kernel.KconfigFile := "/boot/config-6.1.0"; Kernel.ConfigFlags := ["PREEMPT"] |}.

(** Custom-source entries holding [rule_static] and [rule_static_override]. *)
Definition static_spec : CustomRule' := {| crLegacyRule := None; crRule := Some rule_static |}.

Definition override_spec : CustomRule' := {| crLegacyRule := None; crRule := Some rule_static_override |}.

(** U+00A0 (no-break space) and U+3000 (ideographic space), in UTF-8. *)
Definition nbsp : string := String "194"%char (String "160"%char EmptyString).

Definition ideographic_space : string :=
  String "227"%char (String "128"%char (String "128"%char EmptyString)).

(** The snapshot in which "domain-1.vf-1" holds key-1 = val-1. *)
Definition snapshot_val1 : gmap string DomainFeatures := snapshot {[ "key-1" := "val-1" ]}.

(** Terms on the snapshots above: key-1 exists in "domain-1.kf-1" (it
    does), key-2 exists in "domain-1.kf-1" (it does not), key-1 is one of
    [vals] in "domain-1.vf-1", and two terms that cannot be resolved: the
    absent domain "missing" and the absent feature "domain-1.nope". *)
Definition kf1_key1 : FeatureMatcherTerm MatchExpressionList :=
  term "domain-1.kf-1" [("key-1", exists_expr)].

Definition kf1_key2 : FeatureMatcherTerm MatchExpressionList :=
  term "domain-1.kf-1" [("key-2", exists_expr)].

Definition vf1_in (vals : list string) : FeatureMatcherTerm MatchExpressionList :=
  term "domain-1.vf-1" [("key-1", {| Op := MatchIn; MatchValue := vals |})].

Definition missing_term : FeatureMatcherTerm MatchExpressionList :=
  term "missing.feature" [("key-1", exists_expr)].



(** A rule whose only MatchAny alternative does not match, with a
    MatchFeatures naming the absent domain "missing". *)
Definition rule_matchany_nomatch : Rule MatchExpressionList TextTemplate :=
  {| Name := "nomatch"; Labels := {[ "l" := "v" ]}; LabelsTemplate := "";
     MatchFeatures := [missing_term]; MatchAny := [{| MatchAnyFeatures := [kf1_key2] |}];
     labelsTemplate := None |}.

(** A compiled rule whose template prints "label-1=template" and whose
    static labels set "label-1" to "static". *)
Definition rule_template_override : Rule MatchExpressionList TextTemplate :=
  {| Name := "tmpl"; Labels := {[ "label-1" := "static" ]}; LabelsTemplate := "label-1=template";
     MatchFeatures := [kf1_key1]; MatchAny := [];
     labelsTemplate := Some {| template_text := "label-1=template" |} |}.

(** A rule whose one MatchAny alternative (key-1 exists in domain-1.kf-1)
    matches [snapshot_val1] but whose MatchFeatures (key-2 exists in
    domain-1.kf-1) does not; its static labels set "l" to "v". *)
Definition rule_any_features_nomatch : Rule MatchExpressionList TextTemplate :=
  {| Name := "anyfeat"; Labels := {[ "l" := "v" ]}; LabelsTemplate := "";
     MatchFeatures := [kf1_key2]; MatchAny := [{| MatchAnyFeatures := [kf1_key1] |}];
     labelsTemplate := None |}.

(** A template that prints the line "<list_key>=<name>" for every matched
    feature <name>, as the text [{{range .}}{{range $name, $_ := .}}key={{$name}}]
    followed by a newline and two [{{end}}] would with "key" for
    [list_key].  Go's range visits map keys in sorted order; here they come
    in the order of the map, the same for the one-feature maps of the
    examples. *)
Record FeatureListTemplate := { list_key : string }.

#[export] Instance feature_list_template : TemplateEngine FeatureListTemplate := {
  template_Parse s := inl {| list_key := s |};
  template_Execute t m :=
    (String.concat "" (map (fun d => String.concat "" (map (fun f => list_key t ++ "=" ++ f.1 ++ nl)
                                                         (map_to_list d.2)))
                         (map_to_list m)), None)
}.

(** A compiled rule with two MatchAny alternatives, matching "domain-1.kf-1"
    and "domain-1.vf-1" on [snapshot_val1]; its template prints
    "feature=<name>" for the matched feature, so the second alternative
    overwrites the label "feature" set by the first. *)
Definition rule_two_alternatives : Rule MatchExpressionList FeatureListTemplate :=
  {| Name := "two"; Labels := {[ "static" := "s" ]}; LabelsTemplate := "feature";
     MatchFeatures := [];
     MatchAny := [{| MatchAnyFeatures := [kf1_key1] |};
                  {| MatchAnyFeatures := [term "domain-1.vf-1" [("key-1", exists_expr)]] |}];
     labelsTemplate := Some {| list_key := "feature" |} |}.

(** A template collaborator with failures, for the error paths of template
    handling: the text "{{" does not parse (an unclosed action), the text
    "{{fail}}" parses but fails when executed, and any other text is written
    out unchanged. *)
Record ProbeTemplate := { probe_text : string }.

#[export] Instance probe_template_engine : TemplateEngine ProbeTemplate := {
  template_Parse s :=
    if String.eqb s "{{" then inr (ErrExternal "unclosed action") else inl {| probe_text := s |};
  template_Execute t _ :=
    if String.eqb (probe_text t) "{{fail}}" then ("", Some (ErrExternal "fail"))
    else (probe_text t, None)
}.

(** A rule whose cache holds the template "a=1" while its [LabelsTemplate]
    reads "b=2". *)
Definition rule_probe_stale_cache : Rule MatchExpressionList ProbeTemplate :=
  {| Name := "stale"; Labels := ∅; LabelsTemplate := "b=2"; MatchFeatures := [];
     MatchAny := []; labelsTemplate := Some {| probe_text := "a=1" |} |}.

(** A rule whose template "{{fail}}" is not compiled yet. *)
Definition rule_probe_uncached_fail : Rule MatchExpressionList ProbeTemplate :=
  {| Name := "fail"; Labels := ∅; LabelsTemplate := "{{fail}}"; MatchFeatures := [];
     MatchAny := []; labelsTemplate := None |}.

(** [rule_probe_uncached_fail] with its template compiled. *)
Definition rule_probe_cached_fail : Rule MatchExpressionList ProbeTemplate :=
  set_labelsTemplate rule_probe_uncached_fail (Some {| probe_text := "{{fail}}" |}).

(** A rule whose template "{{" does not parse. *)
Definition rule_probe_unparsable : Rule MatchExpressionList ProbeTemplate :=
  {| Name := "bad"; Labels := ∅; LabelsTemplate := "{{"; MatchFeatures := [];
     MatchAny := []; labelsTemplate := None |}.

(** * Properties *)

(** ** FeatureMatcher *)

Section MatcherProperties.
Local Open Scope list_scope.
Context {MatchExpressionSet : Type} `{!MatchExpressionEval MatchExpressionSet} {case_tables : CaseTables}.
Implicit Types (features : gmap string DomainFeatures).

Lemma match_terms_cons_match features (t : FeatureMatcherTerm MatchExpressionSet) ts ret :
  term_matches features t ->
  exists ret', match_terms features (t :: ts) ret = match_terms features ts ret'.
Proof.
  intros (d & fn & v & Hev & Hv). simpl. rewrite Hev.
  rewrite bool_decide_true; [eauto|].
  destruct v; [done|simpl; lia].
Qed.

Lemma match_terms_cons_fail features (t : FeatureMatcherTerm MatchExpressionSet) ts ret :
  term_resolves features t -> ~ term_matches features t ->
  match_terms features (t :: ts) ret = (None, None).
Proof.
  intros (d & fn & v & Hev) Hnm. simpl. rewrite Hev.
  destruct v as [|x v]; [done|].
  exfalso. apply Hnm. exists d, fn, (x :: v). done.
Qed.

Lemma match_terms_all_match features ts :
  Forall (term_matches (MatchExpressionSet:=MatchExpressionSet) features) ts ->
  forall ret, exists r, match_terms features ts ret = (Some r, None).
Proof.
  induction 1 as [|t ts Ht _ IH]; intros ret; [by eexists|].
  destruct (match_terms_cons_match features t ts ret Ht) as [ret' ->]. apply IH.
Qed.

Lemma term_matches_or_fails features (t : FeatureMatcherTerm MatchExpressionSet) :
  term_matches features t \/ ~ term_matches features t.
Proof.
  unfold term_matches.
  destruct (eval_term features t) as [[[d fn] [v e]]|err] eqn:Hev.
  - destruct e; [right; intros (? & ? & ? & H & _); congruence|].
    destruct v as [|x v].
    + right. intros (? & ? & ? & H & Hne). by simplify_eq.
    + left. eauto 10.
  - right. intros (? & ? & ? & H & _). congruence.
Qed.

Lemma match_terms_some_fails features ts :
  Forall (term_resolves (MatchExpressionSet:=MatchExpressionSet) features) ts ->
  ~ Forall (term_matches features) ts ->
  forall ret, match_terms features ts ret = (None, None).
Proof.
  induction 1 as [|t ts Ht _ IH]; intros Hn ret; [by destruct Hn|].
  destruct (term_matches_or_fails features t) as [Hm|Hnm].
  - destruct (match_terms_cons_match features t ts ret Hm) as [ret' ->].
    apply IH. intros Hall. apply Hn. by constructor.
  - by apply match_terms_cons_fail.
Qed.

Lemma match_terms_app features (pre : FeatureMatcher MatchExpressionSet) ts :
  Forall (term_matches features) pre ->
  forall ret, exists ret', match_terms features (pre ++ ts) ret = match_terms features ts ret'.
Proof.
  induction 1 as [|t pre Ht _ IH]; intros ret; [by eexists|].
  simpl app. destruct (match_terms_cons_match features t (pre ++ ts) ret Ht) as [ret' ->].
  apply IH.
Qed.

Lemma classic_Forall_matches features (m : FeatureMatcher MatchExpressionSet) :
  Forall (term_resolves features) m ->
  Forall (term_matches features) m \/ ~ Forall (term_matches features) m.
Proof.
  induction 1 as [|t ts Ht _ IH]; [by left|].
  destruct (term_matches_or_fails features t) as [Hm|Hnm].
  - destruct IH as [IH|IH]; [left; by constructor|right; intros Hall; inversion Hall; auto].
  - right. intros Hall. inversion Hall. auto.
Qed.

(** C3. AND semantics of [FeatureMatcher.match]: when every term resolves
    and evaluates without error, the matcher never returns an error, its
    result is non-nil exactly when every term matches at least one element,
    and as soon as a term fails to match (all earlier terms having matched)
    the result is nil without error, whatever the later terms are; so
    turning one term of a matching matcher into a non-matching one turns
    the result from non-nil into nil. *)
Theorem FeatureMatcher_match_AND features (m : FeatureMatcher MatchExpressionSet) :
  Forall (term_resolves features) m ->
  snd (FeatureMatcher_match features m) = None /\
  (is_Some (fst (FeatureMatcher_match features m)) <-> Forall (term_matches features) m) /\
  (forall pre (t : FeatureMatcherTerm MatchExpressionSet) post,
     Forall (term_matches features) pre ->
     term_resolves features t -> ~ term_matches features t ->
     FeatureMatcher_match features (pre ++ t :: post) = (None, None)).
Proof.
  intros Hres. unfold FeatureMatcher_match.
  destruct (classic_Forall_matches features m Hres) as [Hall|Hnall].
  - destruct (match_terms_all_match features m Hall ∅) as [r ->].
    split; [done|]. split; [by eauto|].
    intros pre t post Hpre Ht Hnt. destruct (match_terms_app features pre (t :: post) Hpre ∅) as [ret' ->].
    by apply match_terms_cons_fail.
  - rewrite (match_terms_some_fails features m Hres Hnall ∅).
    split; [done|]. split; [split; [intros [? ?]; done|done]|].
    intros pre t post Hpre Ht Hnt. destruct (match_terms_app features pre (t :: post) Hpre ∅) as [ret' ->].
    by apply match_terms_cons_fail.
Qed.

End MatcherProperties.

(** ** Rule.execute (custom source) and Rule.Execute (v1alpha1) *)

Section RuleProperties.
Local Open Scope list_scope.
Context {MatchExpressionSet Template : Type}
  `{!MatchExpressionEval MatchExpressionSet} {case_tables : CaseTables} `{!TemplateEngine Template}.
Implicit Types (features : gmap string DomainFeatures) (r : Rule MatchExpressionSet Template).




Lemma custom_matchAny_loop_skip r features apre alts matched ret :
  Forall (fun a => MatchAnyElem_match features a = (None, None)) apre ->
  Custom.matchAny_loop r features (apre ++ alts) matched ret =
    Custom.matchAny_loop r features alts matched ret.
Proof. induction 1 as [|a apre Ha _ IH]; simpl; [done|]. by rewrite Ha. Qed.

Lemma v1_matchAny_loop_skip r features apre alts matched ret :
  Forall (fun a => MatchAnyElem_match features a = (None, None)) apre ->
  V1alpha1.matchAny_loop r features (apre ++ alts) matched ret =
    V1alpha1.matchAny_loop r features alts matched ret.
Proof. induction 1 as [|a apre Ha _ IH]; simpl; [done|]. by rewrite Ha. Qed.

(** [execute] of both files on a rule with MatchAny alternatives, once the
    loop over them has returned. *)
Lemma execute_after_matchAny r features a alts :
  MatchAny r = a :: alts ->
  Custom.execute r features =
    match Custom.matchAny_loop r features (a :: alts) false ∅ with
    | (_, _, Some err) => (None, Some err)
    | (false, _, None) => (None, None)
    | (true, ret', None) => Custom.execute_matchFeatures r features ret'
    end /\
  V1alpha1.Execute r features =
    match V1alpha1.matchAny_loop r features (a :: alts) false ∅ with
    | (r', (_, _, Some err)) => (r', (None, Some err))
    | (r', (false, _, None)) => (r', (None, None))
    | (r', (true, ret', None)) => V1alpha1.Execute_matchFeatures r' features ret'
    end.
Proof. intros Hany. unfold Custom.execute, V1alpha1.Execute. by rewrite Hany. Qed.



(** C10. Whenever [execute] (custom source) or [Execute] (v1alpha1) returns
    a non-nil error, the returned label map is nil: labels accumulated by
    earlier MatchAny alternatives are dropped. *)
Theorem execute_error_no_labels r features :
  (forall e, snd (Custom.execute r features) = Some e -> fst (Custom.execute r features) = None) /\
  (forall e, snd (snd (V1alpha1.Execute r features)) = Some e ->
             fst (snd (V1alpha1.Execute r features)) = None).
Proof.
  split; intros e.
  - unfold Custom.execute, Custom.execute_matchFeatures. repeat case_match; simpl; congruence.
  - unfold V1alpha1.Execute, V1alpha1.Execute_matchFeatures. repeat case_match; simpl; congruence.
Qed.

End RuleProperties.

Section StaticLabels.
Local Open Scope list_scope.
Context {MatchExpressionSet Template : Type}
  `{!MatchExpressionEval MatchExpressionSet} {case_tables : CaseTables} `{!TemplateEngine Template}.
Implicit Types (features : gmap string DomainFeatures) (r : Rule MatchExpressionSet Template).

Lemma v1_executeLabelsTemplate_Labels r m out :
  Labels (fst (V1alpha1.executeLabelsTemplate r m out)) = Labels r.
Proof. unfold V1alpha1.executeLabelsTemplate. by repeat case_match; simplify_eq/=. Qed.

Lemma v1_matchAny_loop_Labels r features alts matched ret :
  Labels (fst (V1alpha1.matchAny_loop r features alts matched ret)) = Labels r.
Proof.
  revert r matched ret. induction alts as [|a alts IH]; intros r matched ret; [done|].
  simpl. destruct (MatchAnyElem_match features a) as [[m|] [e|]]; try done.
  destruct (labelsTemplate r); [|done].
  destruct (V1alpha1.executeLabelsTemplate r m ret) as [r' [ret' [e|]]] eqn:Hx;
    rewrite <- (v1_executeLabelsTemplate_Labels r m ret), Hx; simpl; [done|apply IH].
Qed.

Lemma custom_execute_matchFeatures_labels r features ret out :
  fst (Custom.execute_matchFeatures r features ret) = Some out -> exists ret', out = Labels r ∪ ret'.
Proof. unfold Custom.execute_matchFeatures. repeat case_match; simpl; intros; simplify_eq; eauto. Qed.

Lemma v1_Execute_matchFeatures_labels r features ret out :
  fst (snd (V1alpha1.Execute_matchFeatures r features ret)) = Some out ->
  exists ret', out = Labels r ∪ ret'.
Proof.
  unfold V1alpha1.Execute_matchFeatures.
  destruct (MatchFeatures r); [simpl; intros; simplify_eq; eauto|].
  destruct (FeatureMatcher_match features _) as [[m|] [e|]]; simpl; try done.
  destruct (V1alpha1.executeLabelsTemplate r m ret) as [r' [ret' [e|]]] eqn:Hx; simpl; [done|].
  intros H. simplify_eq. exists ret'.
  by rewrite <- (v1_executeLabelsTemplate_Labels r m ret), Hx.
Qed.

Lemma v1_executeLabelsTemplate_MatchFeatures r m out :
  MatchFeatures (fst (V1alpha1.executeLabelsTemplate r m out)) = MatchFeatures r.
Proof. unfold V1alpha1.executeLabelsTemplate. by repeat case_match; simplify_eq/=. Qed.

Lemma v1_matchAny_loop_MatchFeatures r features alts matched ret :
  MatchFeatures (fst (V1alpha1.matchAny_loop r features alts matched ret)) = MatchFeatures r.
Proof.
  revert r matched ret. induction alts as [|a alts IH]; intros r matched ret; [done|].
  simpl. destruct (MatchAnyElem_match features a) as [[m|] [e|]]; try done.
  destruct (labelsTemplate r); [|done].
  destruct (V1alpha1.executeLabelsTemplate r m ret) as [r' [ret' [e|]]] eqn:Hx;
    rewrite <- (v1_executeLabelsTemplate_MatchFeatures r m ret), Hx; simpl; [done|apply IH].
Qed.

Lemma custom_execute_matchFeatures_nomatch r features ret :
  MatchFeatures r <> [] -> FeatureMatcher_match features (MatchFeatures r) = (None, None) ->
  Custom.execute_matchFeatures r features ret = (None, None).
Proof.
  intros Hne Hm. unfold Custom.execute_matchFeatures. rewrite Hm.
  by destruct (MatchFeatures r).
Qed.

Lemma v1_Execute_matchFeatures_nomatch r features ret :
  MatchFeatures r <> [] -> FeatureMatcher_match features (MatchFeatures r) = (None, None) ->
  V1alpha1.Execute_matchFeatures r features ret = (r, (None, None)).
Proof.
  intros Hne Hm. unfold V1alpha1.Execute_matchFeatures. rewrite Hm.
  by destruct (MatchFeatures r).
Qed.

(** C5 (amended). Whenever [execute] (custom source) or [Execute]
    (v1alpha1) returns a label map, that map is the template-derived labels
    with the static [Labels] merged over them last, so a static label always
    overrides a template-derived label of the same key; a rule with neither
    [MatchAny] nor [MatchFeatures] returns exactly its static labels.  When
    no [MatchAny] alternative matches, or the [MatchFeatures] matcher does
    not match, [execute] returns nil with no error, so the static labels are
    not emitted (for [MatchFeatures] the only other outcome is an error
    already raised by the [MatchAny] loop). *)
Theorem execute_static_labels_last r features :
  (forall out, fst (Custom.execute r features) = Some out -> exists ret, out = Labels r ∪ ret) /\
  (forall out, fst (snd (V1alpha1.Execute r features)) = Some out ->
               exists ret, out = Labels r ∪ ret) /\
  (MatchAny r = [] -> MatchFeatures r = [] ->
     Custom.execute r features = (Some (Labels r), None) /\
     snd (V1alpha1.Execute r features) = (Some (Labels r), None)) /\
  (MatchAny r <> [] ->
     Forall (fun a => MatchAnyElem_match features a = (None, None)) (MatchAny r) ->
     Custom.execute r features = (None, None) /\
     snd (V1alpha1.Execute r features) = (None, None)) /\
  (MatchFeatures r <> [] -> FeatureMatcher_match features (MatchFeatures r) = (None, None) ->
     (Custom.execute r features = (None, None) \/
      exists e, Custom.execute r features = (None, Some e) /\
                snd (Custom.matchAny_loop r features (MatchAny r) false ∅) = Some e) /\
     (snd (V1alpha1.Execute r features) = (None, None) \/
      exists e, snd (V1alpha1.Execute r features) = (None, Some e) /\
                snd (snd (V1alpha1.matchAny_loop r features (MatchAny r) false ∅)) = Some e)).
Proof.
  split; [|split; [|split; [|split]]].
  - intros out. unfold Custom.execute.
    destruct (MatchAny r); [apply custom_execute_matchFeatures_labels|].
    destruct (Custom.matchAny_loop _ _ _ _ _) as [[[] ret'] [e|]]; simpl; try done.
    apply custom_execute_matchFeatures_labels.
  - intros out. unfold V1alpha1.Execute.
    destruct (MatchAny r) as [|a alts]; [apply v1_Execute_matchFeatures_labels|].
    destruct (V1alpha1.matchAny_loop r features (a :: alts) false ∅)
      as [r' [[[] ret'] [e|]]] eqn:Hl; simpl; try done.
    intros H. apply v1_Execute_matchFeatures_labels in H.
    by rewrite <- (v1_matchAny_loop_Labels r features (a :: alts) false ∅), Hl.
  - intros Hany Hmf.
    unfold Custom.execute, V1alpha1.Execute, Custom.execute_matchFeatures,
      V1alpha1.Execute_matchFeatures.
    rewrite Hany, Hmf. simpl. by rewrite (right_id ∅ (∪)).
  - intros Hne Hnone. destruct (MatchAny r) as [|a alts] eqn:Hany; [done|].
    destruct (execute_after_matchAny r features a alts Hany) as [-> ->].
    pose proof (custom_matchAny_loop_skip r features _ [] false ∅ Hnone) as Hc.
    pose proof (v1_matchAny_loop_skip r features _ [] false ∅ Hnone) as Hv.
    rewrite app_nil_r in Hc, Hv. by rewrite Hc, Hv.
  - intros Hne Hm. split.
    + unfold Custom.execute. destruct (MatchAny r) as [|a alts].
      * left. by apply custom_execute_matchFeatures_nomatch.
      * destruct (Custom.matchAny_loop r features (a :: alts) false ∅)
          as [[[] ret'] [e|]]; simpl.
        -- right. by exists e.
        -- left. by apply custom_execute_matchFeatures_nomatch.
        -- right. by exists e.
        -- by left.
    + unfold V1alpha1.Execute. destruct (MatchAny r) as [|a alts].
      * left. by rewrite v1_Execute_matchFeatures_nomatch.
      * pose proof (v1_matchAny_loop_MatchFeatures r features (a :: alts) false ∅) as Hmf.
        destruct (V1alpha1.matchAny_loop r features (a :: alts) false ∅)
          as [r' [[[] ret'] [e|]]]; simpl in *.
        -- right. by exists e.
        -- left. rewrite v1_Execute_matchFeatures_nomatch; rewrite ?Hmf; done.
        -- right. by exists e.
        -- by left.
Qed.

End StaticLabels.

(** C5 counterexample: the spec's scenario with "key-1" absent from
    "vf-1": the rule does not match and [execute] (both files) returns nil
    without error, so the static label "label-3" is not emitted. *)
Lemma static_labels_not_emitted_on_no_match :
  Labels rule_label3 = {[ "label-3" := "label-val-3" ]} /\
  Custom.execute rule_label3 (snapshot ∅) = (None, None) /\
  snd (V1alpha1.Execute rule_label3 (snapshot ∅)) = (None, None).
Proof. split; [reflexivity|]. split; vm_compute; reflexivity. Qed.

(** C1. The MatchAny alternative of [rule_matchany_template] matches and
    the rule has a label template.  The custom source, whose [SetConfig]
    compiles the template, expands it ("a=1").  v1alpha1's [Execute] tests
    the template cache [labelsTemplate], still nil since the template is
    compiled only inside [executeLabelsTemplate], takes the "no templating"
    branch and stops: the template is never executed, the result has no
    template label, and the cache stays nil for the next call. *)
Theorem matchAny_template_skipped_v1alpha1 :
  V1alpha1.Execute rule_matchany_template (snapshot ∅) = (rule_matchany_template, (Some ∅, None)) /\
  exists r', Custom.compile_rule rule_matchany_template = Some r' /\
             Custom.execute r' (snapshot ∅) = (Some {[ "a" := "1" ]}, None).
Proof.
  split; [vm_compute; reflexivity|].
  eexists; split; [reflexivity|vm_compute; reflexivity].
Qed.

(** ** Template output parsing *)

Lemma Split_line (l s : string) :
  no_newline l = true ->
  Split newline (l ++ String newline s) = l :: Split newline s.
Proof.
  induction l as [|a l IH]; intros Hl; simpl.
  - reflexivity.
  - simpl in Hl. apply andb_prop in Hl as [Ha Hl].
    rewrite (IH Hl). apply negb_true_iff in Ha. by rewrite Ha.
Qed.

Lemma parse_lines_line (noValue l s : string) (out : gmap string string) :
  no_newline l = true ->
  parse_lines noValue (l ++ String newline s) out = parse_lines noValue s (parse_line noValue out l).
Proof. intros Hl. unfold parse_lines. by rewrite Split_line. Qed.

Section TemplateParsing.
Context {MatchExpressionSet Template : Type}
  `{!MatchExpressionEval MatchExpressionSet} {case_tables : CaseTables} `{!TemplateEngine Template}.

(** C2 (amended).  Both expanders run the template and parse its output
    the same way: lines split on '\n' are processed in order, each
    [TrimSpace]d, blank ones skipped, the others split once on the first
    '=' into key and value.  A line without '=' gives the value "true" in
    the custom source's [executeLabelsTemplate] but the empty value "" in
    v1alpha1's [expandMap]; so "a=1\nb\n\n  \n" gives {"a":"1","b":"true"}
    in the custom source and {"a":"1","b":""} in v1alpha1.  [TrimSpace]
    trims Unicode white space as well, such as a trailing U+00A0 or a
    leading U+3000. *)
Theorem template_output_parsing :
  (forall (r : Rule MatchExpressionSet Template) t m s out,
     labelsTemplate r = Some t -> template_Execute t m = (s, None) ->
     Custom.executeLabelsTemplate r m out = (parse_lines "true" s out, None)) /\
  (forall (t : Template) m s,
     template_Execute t m = (s, None) ->
     V1alpha1.expandMap t m = (Some (parse_lines "" s ∅), None)) /\
  (forall noValue l s out, no_newline l = true ->
     parse_lines noValue (l ++ String newline s) out =
     parse_lines noValue s (parse_line noValue out l)) /\
  (forall noValue out,
     parse_line noValue out "  k=v=w " = <[ "k" := "v=w" ]> out /\
     parse_line noValue out " flag  " = <[ "flag" := noValue ]> out /\
     parse_line noValue out "   " = out) /\
  (forall noValue out,
     parse_line noValue out ("a=1" ++ nbsp) = <[ "a" := "1" ]> out /\
     parse_line noValue out (ideographic_space ++ "flag" ++ nbsp) = <[ "flag" := noValue ]> out /\
     parse_line noValue out (nbsp ++ " " ++ ideographic_space) = out) /\
  parse_lines "true" example_output ∅ = <[ "a" := "1" ]> {[ "b" := "true" ]} /\
  parse_lines "" example_output ∅ = <[ "a" := "1" ]> {[ "b" := "" ]}.
Proof.
  split; [|split; [|split; [|split; [|split; [|split]]]]].
  - intros r t m s out Ht Hs. unfold Custom.executeLabelsTemplate. by rewrite Ht, Hs.
  - intros t m s Hs. unfold V1alpha1.expandMap. by rewrite Hs.
  - intros. by apply parse_lines_line.
  - intros noValue out. split; [|split]; reflexivity.
  - intros noValue out. split; [|split]; reflexivity.
  - vm_compute. reflexivity.
  - vm_compute. reflexivity.
Qed.

End TemplateParsing.

(** C2 counterexample: v1alpha1's [expandMap] on a template printing
    "a=1\nb\n\n  \n" gives "b" the value "", not "true". *)
Lemma expandMap_no_value_is_empty :
  V1alpha1.expandMap {| template_text := example_output |} ∅ =
    (Some (<[ "a" := "1" ]> {[ "b" := "" ]}), None) /\
  V1alpha1.expandMap {| template_text := example_output |} ∅ <>
    (Some (<[ "a" := "1" ]> {[ "b" := "true" ]}), None).
Proof.
  assert (H : V1alpha1.expandMap {| template_text := example_output |} ∅ =
              (Some (<[ "a" := "1" ]> {[ "b" := "" ]}), None)) by (vm_compute; reflexivity).
  split; [exact H|]. rewrite H. intros Heq.
  apply (f_equal (fun p => match fst p with Some m => m !! "b" | None => None end)) in Heq.
  vm_compute in Heq. congruence.
Qed.

(** ** Legacy rules, CustomRule and GetLabels *)

Section LegacyProperties.
Local Open Scope list_scope.
Context {MatchExpressionSet Template : Type}
  `{!MatchExpressionEval MatchExpressionSet} {case_tables : CaseTables} `{!TemplateEngine Template}.
Context {PciIDRule UsbIDRule LoadedKModRule CpuIDRule KconfigRule NodenameRule : Type}
  `{!legacyRule PciIDRule} `{!legacyRule UsbIDRule} `{!legacyRule LoadedKModRule}
  `{!legacyRule CpuIDRule} `{!legacyRule KconfigRule} `{!legacyRule NodenameRule}.

Local Abbreviation LegacyMatcher :=
  (@LegacyMatcher PciIDRule UsbIDRule LoadedKModRule CpuIDRule KconfigRule NodenameRule).
Local Abbreviation LegacyRule :=
  (@LegacyRule PciIDRule UsbIDRule LoadedKModRule CpuIDRule KconfigRule NodenameRule).
Local Abbreviation CustomRule :=
  (@CustomRule MatchExpressionSet Template PciIDRule UsbIDRule LoadedKModRule CpuIDRule
     KconfigRule NodenameRule).

Lemma matchOn_loop_app (pre : list LegacyMatcher) ms :
  Forall (fun m => LegacyMatcher_match m = (false, None)) pre ->
  matchOn_loop (pre ++ ms) = matchOn_loop ms.
Proof. induction 1 as [|m pre Hm _ IH]; [done|]. simpl. by rewrite Hm. Qed.

Lemma matchRules_app pre post :
  Forall (fun o => o = None \/ o = Some (true, None)) pre ->
  matchRules (pre ++ post) = matchRules post.
Proof. induction 1 as [|o pre [-> | ->] _ IH]; done. Qed.

(** C6. [LegacyRule.execute]: a rule with no [MatchOn] alternative always
    emits its label; otherwise the alternatives are ORed, the first one that
    matches wins and the later ones are not consulted; when none matches
    the result is nil without error.  The label is the single pair
    name -> value, the value defaulting to "true".  [LegacyMatcher.match]
    ANDs its six slots in order, skipping unset ones, so a matcher with
    every slot unset (or all set slots matching) matches, and the first set
    slot that does not match makes it fail. *)
Theorem LegacyRule_execute_semantics (r : LegacyRule) features :
  (MatchOn r = [] ->
     LegacyRule_execute r features =
       (Some {[ LegacyName r := match Value r with Some v => v | None => "true" end ]}, None)) /\
  (forall pre (m : LegacyMatcher) post,
     MatchOn r = pre ++ m :: post ->
     Forall (fun m => LegacyMatcher_match m = (false, None)) pre ->
     LegacyMatcher_match m = (true, None) ->
     LegacyRule_execute r features =
       (Some {[ LegacyName r := match Value r with Some v => v | None => "true" end ]}, None)) /\
  (MatchOn r <> [] ->
     Forall (fun m => LegacyMatcher_match m = (false, None)) (MatchOn r) ->
     LegacyRule_execute r features = (None, None)) /\
  (forall m : LegacyMatcher,
     Forall (fun o => o = None \/ o = Some (true, None)) (allRules m) ->
     LegacyMatcher_match m = (true, None)) /\
  (forall (m : LegacyMatcher) pre post,
     allRules m = pre ++ Some (false, None) :: post ->
     Forall (fun o => o = None \/ o = Some (true, None)) pre ->
     LegacyMatcher_match m = (false, None)).
Proof.
  split; [|split; [|split; [|split]]].
  - intros H. unfold LegacyRule_execute. by rewrite H.
  - intros pre m post Hon Hpre Hm. unfold LegacyRule_execute. rewrite Hon.
    destruct (pre ++ m :: post) eqn:Hl; [by destruct pre|].
    rewrite <- Hl, matchOn_loop_app by done. simpl. by rewrite Hm.
  - intros Hne Hall. unfold LegacyRule_execute.
    destruct (MatchOn r) as [|m ms] eqn:Hon; [done|].
    pose proof (matchOn_loop_app (m :: ms) [] Hall) as H. rewrite app_nil_r in H.
    by rewrite H.
  - intros m Hall. unfold LegacyMatcher_match.
    pose proof (matchRules_app (allRules m) [] Hall) as H. rewrite app_nil_r in H.
    by rewrite H.
  - intros m pre post Hm Hpre. unfold LegacyMatcher_match. rewrite Hm.
    by rewrite matchRules_app.
Qed.

Lemma GetLabels_loop_log features (rules : list CustomRule) labels log :
  exists l', snd (GetLabels_loop features rules labels log) = log ++ l'.
Proof.
  revert labels log. induction rules as [|r rules IH]; intros labels log; simpl.
  - exists []. by rewrite app_nil_r.
  - destruct (CustomRule_execute r features) as [o [e|]].
    + destruct (IH labels (log ++ [e])) as [l' ->]. exists ([e] ++ l'). by rewrite app_assoc.
    + apply IH.
Qed.

Lemma GetLabels_loop_labels features (rules : list CustomRule) labels log log' :
  fst (GetLabels_loop features rules labels log) = fst (GetLabels_loop features rules labels log').
Proof.
  revert labels log log'. induction rules as [|r rules IH]; intros labels log log'; simpl; [done|].
  destruct (CustomRule_execute r features) as [o [e|]]; apply IH.
Qed.

(** C9. In [GetLabels] a rule whose execution fails is logged and skipped:
    the labels of the pass are those of the same rule list without that
    rule, its error is in the log, and [GetLabels] itself always returns a
    label map and no error. *)
Theorem GetLabels_isolates_rule_errors features (staticConfig config directoryConfig : list CustomRule) :
  snd (fst (GetLabels features staticConfig config directoryConfig)) = None /\
  is_Some (fst (fst (GetLabels features staticConfig config directoryConfig))) /\
  (forall pre (r : CustomRule) post labels log e,
     snd (CustomRule_execute r features) = Some e ->
     fst (GetLabels_loop features (pre ++ r :: post) labels log) =
       fst (GetLabels_loop features (pre ++ post) labels log) /\
     e ∈ snd (GetLabels_loop features (pre ++ r :: post) labels log)).
Proof.
  split; [|split].
  - unfold GetLabels. by destruct (GetLabels_loop _ _ _ _).
  - unfold GetLabels. by destruct (GetLabels_loop _ _ _ _).
  - intros pre r post labels log e Hr.
    destruct (CustomRule_execute r features) as [o e'] eqn:Hx. simpl in Hr. subst e'.
    revert labels log. induction pre as [|r' pre IH]; intros labels log; simpl.
    + rewrite Hx. split; [apply GetLabels_loop_labels|].
      destruct (GetLabels_loop_log features post labels (log ++ [e])) as [l' ->].
      rewrite <- app_assoc. apply elem_of_app. right. by left.
    + destruct (CustomRule_execute r' features) as [o' [e'|]]; apply IH.
Qed.

Context `{!@RuleCodec MatchExpressionSet Template PciIDRule UsbIDRule LoadedKModRule
             CpuIDRule KconfigRule NodenameRule}.

(** C7. [UnmarshalJSON] parses the rule into a key -> raw value map; when
    some top-level key lower-cases to "matchon" (equals "matchOn" ignoring
    case) the document is decoded into the legacy variant, otherwise into
    the modern one; a failed raw parse is returned as the error. *)
Theorem UnmarshalJSON_dialect (c : CustomRule) (data : string) :
  (forall raw, yaml_Unmarshal_raw data = inl raw ->
     (exists k v, raw !! k = Some v /\ ToLower k = "matchon") ->
     UnmarshalJSON c data =
       ({| crLegacyRule := fst (yaml_Unmarshal_LegacyRule data (crLegacyRule c));
           crRule := crRule c |},
        snd (yaml_Unmarshal_LegacyRule data (crLegacyRule c)))) /\
  (forall raw, yaml_Unmarshal_raw data = inl raw ->
     (forall k v, raw !! k = Some v -> ToLower k <> "matchon") ->
     UnmarshalJSON c data =
       ({| crLegacyRule := crLegacyRule c;
           crRule := fst (yaml_Unmarshal_Rule data (crRule c)) |},
        snd (yaml_Unmarshal_Rule data (crRule c)))) /\
  (forall err, yaml_Unmarshal_raw data = inr err -> UnmarshalJSON c data = (c, Some err)).
Proof.
  split; [|split].
  - intros raw Hraw (k & v & Hk & Hl). unfold UnmarshalJSON. rewrite Hraw.
    replace (existsb _ _) with true.
    + by destruct (yaml_Unmarshal_LegacyRule data (crLegacyRule c)).
    + symmetry. apply existsb_exists. exists (k, v). split.
      * apply list_elem_of_In. by apply elem_of_map_to_list.
      * simpl. by apply String.eqb_eq.
  - intros raw Hraw Hno. unfold UnmarshalJSON. rewrite Hraw.
    replace (existsb _ _) with false.
    + by destruct (yaml_Unmarshal_Rule data (crRule c)).
    + symmetry. apply not_true_iff_false. intros Hex.
      apply existsb_exists in Hex as ([k v] & Hin & Hl).
      apply list_elem_of_In, elem_of_map_to_list in Hin.
      apply String.eqb_eq in Hl. by apply (Hno k v).
  - intros err Herr. unfold UnmarshalJSON. by rewrite Herr.
Qed.

(** C8 (amended). [MarshalJSON] encodes the legacy variant when it is set,
    otherwise the modern one; with neither set it encodes the nil modern
    pointer as JSON null, without error.  The wrapper with neither variant
    is rejected by [CustomRule.execute], with the "empty rule" error. *)
Theorem MarshalJSON_variants (lr : LegacyRule) (rr : Rule MatchExpressionSet Template)
    (o : option (Rule MatchExpressionSet Template)) features :
  MarshalJSON ({| crLegacyRule := Some lr; crRule := o |} : CustomRule) = json_Marshal_LegacyRule lr /\
  MarshalJSON ({| crLegacyRule := None; crRule := Some rr |} : CustomRule) = json_Marshal_Rule rr /\
  MarshalJSON ({| crLegacyRule := None; crRule := None |} : CustomRule) = ("null", None) /\
  CustomRule_execute ({| crLegacyRule := None; crRule := None |} : CustomRule) features =
    (None, Some ErrEmptyRule).
Proof. repeat split. Qed.

End LegacyProperties.

(** ** Strings, template output lines and the kernel config *)

Lemma has_no_cons c a s : has_no c (String a s) = negb (Ascii.eqb a c) && has_no c s.
Proof. reflexivity. Qed.

Lemma has_no_app c s1 s2 : has_no c (s1 ++ s2) = has_no c s1 && has_no c s2.
Proof.
  induction s1 as [|a s1 IH]; [done|].
  change (String a s1 ++ s2) with (String a (s1 ++ s2)).
  rewrite !has_no_cons, IH. apply andb_assoc.
Qed.

Lemma Split_has_no (s : string) : Forall (fun l => has_no newline l = true) (Split newline s).
Proof.
  induction s as [|a s IH]; simpl; [by repeat constructor|].
  destruct (Ascii.eqb a newline) eqn:Ha; [by constructor|].
  destruct (Split newline s) as [|r rs]; [by repeat constructor; rewrite has_no_cons, Ha|].
  inversion IH as [|? ? Hr Hrs]; subst. constructor; [|done].
  by rewrite has_no_cons, Ha, Hr.
Qed.

Lemma TrimLeftSpace_suffix fuel (l : list ascii) : exists p, l = (p ++ TrimLeftSpace fuel l)%list.
Proof.
  revert l. induction fuel as [|fuel IH]; intros [|b bs]; simpl; try by exists [].
  destruct (DecodeRune b bs) as [r width].
  destruct (IsSpace r); [|by exists []].
  destruct (IH (drop width (b :: bs))) as [p Hp]. exists (take width (b :: bs) ++ p)%list.
  by rewrite <- app_assoc, <- Hp, take_drop.
Qed.

Lemma TrimRightSpace_prefix (l : list ascii) : exists q, l = (TrimRightSpace l ++ q)%list.
Proof. unfold TrimRightSpace. eexists. symmetry. apply take_drop. Qed.

Lemma trim_space_start_suffix (l : list ascii) :
  match trim_space_start l with inl r | inr r => exists p, l = (p ++ r)%list end.
Proof.
  induction l as [|b bs IH]; simpl; [by exists []|].
  destruct (RuneSelf <=? byte_val b)%Z; [by exists []|].
  destruct (is_space b); [|by exists []].
  destruct (trim_space_start bs); destruct IH as [p ->]; by exists (b :: p).
Qed.

Lemma trim_space_stop_suffix (l : list ascii) :
  match trim_space_stop l with inl r | inr r => exists p, l = (p ++ r)%list end.
Proof.
  induction l as [|b bs IH]; simpl; [by exists []|].
  destruct (RuneSelf <=? byte_val b)%Z; [by exists []|].
  destruct (is_space b); [|by exists []].
  destruct (trim_space_stop bs); destruct IH as [p ->]; by exists (b :: p).
Qed.

(** [TrimSpace s] is a piece of [s]. *)
Lemma TrimSpace_piece (s : string) :
  exists p q, list_ascii_of_string s = (p ++ list_ascii_of_string (TrimSpace s) ++ q)%list.
Proof.
  unfold TrimSpace. rewrite list_ascii_of_string_of_list_ascii.
  pose proof (trim_space_start_suffix (list_ascii_of_string s)) as Hs.
  destruct (trim_space_start (list_ascii_of_string s)) as [l|l]; destruct Hs as [p Hp].
  - unfold TrimFuncSpace.
    destruct (TrimLeftSpace_suffix (length l) l) as [p' Hp'].
    destruct (TrimRightSpace_prefix (TrimLeftSpace (length l) l)) as [q Hq].
    exists (p ++ p')%list, q. rewrite Hp, Hp' at 1. rewrite Hq at 1. by rewrite !app_assoc.
  - pose proof (trim_space_stop_suffix (rev l)) as Hr.
    destruct (trim_space_stop (rev l)) as [rl|rl]; destruct Hr as [p' Hp'];
      assert (Hl : l = (rev rl ++ rev p')%list)
        by (rewrite <- rev_app_distr, <- Hp'; symmetry; apply rev_involutive).
    + destruct (TrimRightSpace_prefix (rev rl)) as [q Hq].
      exists p, (q ++ rev p')%list. rewrite Hp, Hl at 1. rewrite Hq at 1. by rewrite !app_assoc.
    + exists p, (rev p'). by rewrite Hp, Hl.
Qed.

Lemma has_no_TrimSpace c s : has_no c s = true -> has_no c (TrimSpace s) = true.
Proof.
  unfold has_no. destruct (TrimSpace_piece s) as (p & q & ->).
  rewrite !forallb_app. by intros [_ [? _]%andb_prop]%andb_prop.
Qed.

Lemma SplitN2_Some c s k v :
  SplitN2 c s = Some (k, v) -> s = k ++ String c v /\ has_no c k = true.
Proof.
  revert k v. induction s as [|a s IH]; intros k v; simpl; [done|].
  destruct (Ascii.eqb a c) eqn:Ha.
  - intros [= <- <-]. apply Ascii.eqb_eq in Ha. by subst.
  - destruct (SplitN2 c s) as [[l r]|] eqn:Hs; [|done]. intros [= <- <-].
    destruct (IH l r eq_refl) as [-> Hl]. simpl. split; [done|].
    by rewrite has_no_cons, Ha, Hl.
Qed.

Lemma SplitN2_None c s : SplitN2 c s = None -> has_no c s = true.
Proof.
  induction s as [|a s IH]; simpl; [done|].
  destruct (Ascii.eqb a c) eqn:Ha; [done|].
  destruct (SplitN2 c s) as [[l r]|]; [done|]. intros _. by rewrite has_no_cons, Ha, IH.
Qed.

Lemma parse_line_shape noValue out item k v :
  has_no newline noValue = true -> has_no newline item = true ->
  parse_line noValue out item !! k = Some v ->
  out !! k = Some v \/ label_shape k v.
Proof.
  intros Hnv Hit. unfold parse_line.
  pose proof (has_no_TrimSpace newline item Hit) as Ht.
  destruct (String.eqb (TrimSpace item) "") eqn:He; [by left|].
  destruct (SplitN2 "=" (TrimSpace item)) as [[k' v']|] eqn:Hs.
  - apply SplitN2_Some in Hs as [Hs Hk']. rewrite Hs, has_no_app, has_no_cons in Ht.
    apply andb_prop in Ht as [Htk Htv]. apply andb_prop in Htv as [_ Htv].
    destruct (decide (k = k')) as [->|Hne].
    + rewrite lookup_insert_eq. intros [= <-]. right. done.
    + rewrite lookup_insert_ne by done. by left.
  - apply SplitN2_None in Hs.
    destruct (decide (k = TrimSpace item)) as [->|Hne].
    + rewrite lookup_insert_eq. intros [= <-]. right. done.
    + rewrite lookup_insert_ne by done. by left.
Qed.

Lemma parse_lines_shape_gen noValue lines out k v :
  has_no newline noValue = true -> Forall (fun l => has_no newline l = true) lines ->
  fold_left (parse_line noValue) lines out !! k = Some v ->
  out !! k = Some v \/ label_shape k v.
Proof.
  intros Hnv Hl. revert out. induction Hl as [|l ls Hl _ IH]; intros out; simpl; [by left|].
  intros H. destruct (IH _ H) as [H'|H']; [|by right].
  by apply (parse_line_shape noValue out l).
Qed.

Lemma parse_lines_shape noValue s out k v :
  has_no newline noValue = true ->
  parse_lines noValue s out !! k = Some v -> out !! k = Some v \/ label_shape k v.
Proof. intros Hnv. apply parse_lines_shape_gen; [done|apply Split_has_no]. Qed.

Lemma append_cons a (s1 s2 : string) : String a s1 ++ s2 = String a (s1 ++ s2).
Proof. reflexivity. Qed.

Lemma append_nil (s : string) : "" ++ s = s.
Proof. reflexivity. Qed.

Lemma strip_prefix_app p s : Kernel.strip_prefix p (p ++ s) = Some s.
Proof. induction p as [|a p IH]; [done|]. rewrite append_cons. simpl. by rewrite Ascii.eqb_refl. Qed.

Lemma strip_prefix_Some p s r : Kernel.strip_prefix p s = Some r -> s = p ++ r.
Proof.
  revert s. induction p as [|a p IH]; intros s; simpl; [by intros [= ->]|].
  destruct s as [|b s]; [done|]. destruct (Ascii.eqb a b) eqn:Hab; [|done].
  apply Ascii.eqb_eq in Hab as ->. intros H. by rewrite (IH s H), append_cons.
Qed.

Lemma span_word_spec s w r :
  Kernel.span_word s = (w, r) ->
  s = w ++ r /\ word w = true /\ (r = "" \/ exists a r', r = String a r' /\ Kernel.is_word a = false).
Proof.
  revert w r. induction s as [|a s IH]; intros w r; simpl.
  - intros [= <- <-]. auto.
  - destruct (Kernel.is_word a) eqn:Ha.
    + destruct (Kernel.span_word s) as [w' r'] eqn:Hs. intros [= <- <-].
      destruct (IH w' r' eq_refl) as (-> & Hw & Hr). split; [by rewrite append_cons|].
      split; [|done]. unfold word. simpl. by rewrite Ha.
    + intros [= <- <-]. split; [done|]. split; [done|]. right. eauto.
Qed.

Lemma span_word_app w a r :
  word w = true -> Kernel.is_word a = false -> Kernel.span_word (w ++ String a r) = (w, String a r).
Proof.
  induction w as [|b w IH]; intros Hw Ha.
  - simpl. by rewrite Ha.
  - rewrite append_cons. simpl. unfold word in Hw. simpl in Hw. apply andb_prop in Hw as [Hb Hw].
    rewrite Hb. by rewrite IH.
Qed.

Lemma span_line_spec s w r :
  Kernel.span_line s = (w, r) ->
  s = w ++ r /\ has_no newline w = true /\ (r = "" \/ exists r', r = String newline r').
Proof.
  revert w r. induction s as [|a s IH]; intros w r; simpl.
  - intros [= <- <-]. auto.
  - destruct (Ascii.eqb a newline) eqn:Ha.
    + intros [= <- <-]. apply Ascii.eqb_eq in Ha as ->. split; [done|]. split; [done|]. eauto.
    + destruct (Kernel.span_line s) as [w' r'] eqn:Hs. intros [= <- <-].
      destruct (IH w' r' eq_refl) as (-> & Hw & Hr). split; [by rewrite append_cons|].
      split; [|done]. by rewrite has_no_cons, Ha, Hw.
Qed.

Lemma span_line_no_newline v : has_no newline v = true -> Kernel.span_line v = (v, "").
Proof.
  induction v as [|a v IH]; simpl; [done|]. intros H.
  rewrite has_no_cons in H. apply andb_prop in H as [Ha H]. apply negb_true_iff in Ha.
  rewrite Ha, IH by done. reflexivity.
Qed.

Lemma app_assoc_string (a b c : string) : (a ++ b) ++ c = a ++ (b ++ c).
Proof. induction a as [|x a IH]; [done|]. by rewrite !append_cons, IH. Qed.

Lemma app_nil_r_string (a : string) : a ++ "" = a.
Proof. induction a as [|x a IH]; [done|]. by rewrite append_cons, IH. Qed.

(** The regexp on a single line. *)
Lemma kconfig_re_spec line f v :
  has_no newline line = true ->
  Kernel.kconfig_re line = Some (f, v) <->
  line = "CONFIG_" ++ f ++ String "=" v /\ f <> "" /\ word f = true /\ v <> "".
Proof.
  intros Hl. split.
  - unfold Kernel.kconfig_re.
    destruct (Kernel.strip_prefix "CONFIG_" line) as [rest|] eqn:Hp; [|done].
    apply strip_prefix_Some in Hp as ->.
    destruct (Kernel.span_word rest) as [flag after] eqn:Hw.
    destruct (span_word_spec _ _ _ Hw) as (-> & Hwf & _).
    destruct flag as [|c flag]; [done|].
    destruct after as [|a after]; [done|].
    destruct (Ascii.eqb a "=") eqn:Ha; [|done]. apply Ascii.eqb_eq in Ha as ->.
    destruct (Kernel.span_line after) as [value r] eqn:Hv.
    destruct (span_line_spec _ _ _ Hv) as (-> & Hvn & Hr).
    destruct value as [|d value]; [done|]. intros [= <- <-].
    destruct Hr as [->|[r' ->]].
    + rewrite app_nil_r_string. done.
    + exfalso. repeat (rewrite has_no_app in Hl || rewrite has_no_cons in Hl).
      rewrite Ascii.eqb_refl in Hl. simpl in Hl.
      repeat rewrite andb_false_r in Hl. discriminate.
  - intros (-> & Hf & Hw & Hv). unfold Kernel.kconfig_re. rewrite strip_prefix_app.
    rewrite span_word_app by done.
    destruct f as [|c f]; [done|].
    rewrite Ascii.eqb_refl.
    rewrite has_no_app in Hl. apply andb_prop in Hl as [_ Hl].
    rewrite has_no_app in Hl. apply andb_prop in Hl as [_ Hl].
    rewrite has_no_cons in Hl. apply andb_prop in Hl as [_ Hl].
    rewrite span_line_no_newline by done.
    destruct v; done.
Qed.

Lemma parse_kconfig_fold lines (m : gmap string bool) f :
  (forall k b, m !! k = Some b -> b = true) ->
  (forall k b, fold_left Kernel.parse_kconfig_line lines m !! k = Some b -> b = true) /\
  (is_Some (fold_left Kernel.parse_kconfig_line lines m !! f) <->
   is_Some (m !! f) \/
   exists line, line ∈ lines /\ exists v, Kernel.kconfig_re line = Some (f, v) /\ (v = "y" \/ v = "m")).
Proof.
  revert m. induction lines as [|l lines IH]; intros m Hm; simpl.
  - split; [done|]. split; [by left|]. intros [?|(? & Hin & _)]; [done|]. by apply elem_of_nil in Hin.
  - assert (Hm' : forall k b, Kernel.parse_kconfig_line m l !! k = Some b -> b = true).
    { intros k b. unfold Kernel.parse_kconfig_line.
      destruct (Kernel.kconfig_re l) as [[flag value]|]; [|apply Hm].
      destruct (String.eqb value "y" || String.eqb value "m"); [|apply Hm].
      destruct (decide (k = flag)) as [->|Hne].
      - rewrite lookup_insert_eq. by intros [= <-].
      - rewrite lookup_insert_ne by done. apply Hm. }
    destruct (IH _ Hm') as [Hb Hiff]. split; [done|]. rewrite Hiff.
    unfold Kernel.parse_kconfig_line.
    destruct (Kernel.kconfig_re l) as [[flag value]|] eqn:Hre.
    + destruct (String.eqb value "y" || String.eqb value "m") eqn:Hyv.
      * destruct (decide (f = flag)) as [->|Hne].
        { rewrite lookup_insert_eq. split; [intros _; right; exists l; split; [left|]; exists value; split; [done|]|].
          - apply orb_prop in Hyv as [Hy|Hy]; apply String.eqb_eq in Hy; auto.
          - intros _. left. done. }
        rewrite lookup_insert_ne by done. split.
        { intros [H|(line & Hin & v & Hv & Hyn)]; [by left|]. right. exists line. split; [by right|]. eauto. }
        { intros [H|(line & Hin & v & Hv & Hyn)]; [by left|]. right.
          apply elem_of_cons in Hin as [->|Hin]; [congruence|]. eauto. }
      * split.
        { intros [H|(line & Hin & v & Hv & Hyn)]; [by left|]. right. exists line. split; [by right|]. eauto. }
        { intros [H|(line & Hin & v & Hv & Hyn)]; [by left|]. right.
          apply elem_of_cons in Hin as [->|Hin]; [|eauto].
          rewrite Hre in Hv. injection Hv as <- <-. exfalso.
          destruct Hyn as [->| ->]; simpl in Hyv; done. }
    + split.
      { intros [H|(line & Hin & v & Hv & Hyn)]; [by left|]. right. exists line. split; [by right|]. eauto. }
      { intros [H|(line & Hin & v & Hv & Hyn)]; [by left|]. right.
        apply elem_of_cons in Hin as [->|Hin]; [congruence|]. eauto. }
Qed.

(** X11. The kernel config parser of [parseKconfig] only records enabled
    flags, all as true.  A flag is recorded exactly when it is a non-empty
    run of word characters and some line of the config is exactly
    CONFIG_<flag>=y or CONFIG_<flag>=m. *)
Theorem parse_kconfig_raw_flags raw f :
  (forall b, Kernel.parse_kconfig_raw raw !! f = Some b -> b = true) /\
  (is_Some (Kernel.parse_kconfig_raw raw !! f) <->
   f <> "" /\ word f = true /\
   ("CONFIG_" ++ f ++ "=y" ∈ Split newline raw \/ "CONFIG_" ++ f ++ "=m" ∈ Split newline raw)).
Proof.
  unfold Kernel.parse_kconfig_raw.
  destruct (parse_kconfig_fold (Split newline raw) ∅ f) as [Hb Hiff]; [done|].
  split; [intros b; apply Hb|]. rewrite Hiff.
  pose proof (Split_has_no raw) as Hnl. rewrite Forall_forall in Hnl.
  split.
  - intros [[? H]|(line & Hin & v & Hv & Hyn)]; [done|].
    apply kconfig_re_spec in Hv as (-> & Hf & Hw & _); [|by apply Hnl].
    split; [done|]. split; [done|]. destruct Hyn as [-> | ->]; [left|right]; done.
  - intros (Hf & Hw & [Hin|Hin]); right; eexists; (split; [exact Hin|]);
      [exists "y"|exists "m"]; (split; [|auto]); apply kconfig_re_spec; auto.
Qed.

(** ** kernel source *)

Lemma discover_loop_filter (k : gmap string bool) flags acc :
  Kernel.discover_loop k flags acc =
  app acc ((fun f => "config-" ++ f) <$> filter (fun f => is_Some (k !! f)) flags).
Proof.
  revert acc. induction flags as [|f flags IH]; intros acc; simpl.
  - by rewrite app_nil_r.
  - rewrite IH. rewrite filter_cons. destruct (k !! f) eqn:Hk.
    + rewrite decide_True by done. simpl. by rewrite <- app_assoc.
    + rewrite decide_False by (intros [? ?]; done). done.
Qed.

Lemma config_prefix_inj f g : "config-" ++ f = "config-" ++ g -> f = g.
Proof. intros H. by injection H. Qed.

(** X13. [kernel.Source.Discover] returns "config-<flag>" for each enabled
    flag (the configured [ConfigFlags], or the default flags when none is
    configured) that the parsed kernel config contains, in flag order, and
    never an error.  When [parseKconfig] fails, the feature list is empty. *)
Theorem Discover_features os C :
  let kconfig := default ∅ (fst (Kernel.parseKconfig os C)) in
  let enabledFlags := match Kernel.ConfigFlags C with [] => Kernel.defaultKconfigFlags | fl => fl end in
  Kernel.Discover os C =
    ((fun f => "config-" ++ f) <$> filter (fun f => is_Some (kconfig !! f)) enabledFlags, None) /\
  (forall f, "config-" ++ f ∈ fst (Kernel.Discover os C) <->
             f ∈ enabledFlags /\ is_Some (kconfig !! f)) /\
  (forall e, Kernel.parseKconfig os C = (None, Some e) -> Kernel.Discover os C = ([], None)).
Proof.
  intros kconfig enabledFlags.
  assert (HD : Kernel.Discover os C =
    ((fun f => "config-" ++ f) <$> filter (fun f => is_Some (kconfig !! f)) enabledFlags, None)).
  { unfold Kernel.Discover. by rewrite discover_loop_filter. }
  split; [done|]. split.
  - intros f. rewrite HD. simpl. rewrite list_elem_of_fmap. split.
    + intros (g & Hg & Hin). apply config_prefix_inj in Hg as ->.
      by apply list_elem_of_filter in Hin as [? ?].
    + intros [Hin Hk]. exists f. split; [done|]. by apply list_elem_of_filter.
  - intros e He. rewrite HD.
    assert (Hk : kconfig = ∅) by (unfold kconfig; by rewrite He). rewrite Hk.
    assert (Hf : forall l : list string, filter (fun f => is_Some ((∅ : gmap string bool) !! f)) l = []).
    { induction l as [|f l IH]; [done|]. rewrite filter_cons, decide_False; [done|].
      rewrite lookup_empty. by intros [? ?]. }
    by rewrite Hf.
Qed.

(** X12. The sources of [parseKconfig], in order.  The configured
    [KconfigFile] is used when it is non-empty and reads to some data.
    Otherwise /proc/config.gz is used when it opens as a gzip stream; then
    the data read is parsed even if [ReadAll] also failed.  An error is
    returned only when both sources gave nothing, and it is the error of
    reading the kernel release or of reading /boot/config-<release>. *)
Theorem parseKconfig_sources os C :
  (Kernel.KconfigFile C <> "" -> forall raw, fst (Kernel.ReadFile os (Kernel.KconfigFile C)) = Some raw ->
     Kernel.parseKconfig os C = (Some (Kernel.parse_kconfig_raw raw), None)) /\
  (Kernel.KconfigFile C = "" \/ fst (Kernel.ReadFile os (Kernel.KconfigFile C)) = None ->
     Kernel.Open os "/proc/config.gz" = None -> Kernel.gzipNewReader os "/proc/config.gz" = None ->
     Kernel.parseKconfig os C =
       (Some (Kernel.parse_kconfig_raw (fst (Kernel.ReadAll os "/proc/config.gz"))), None)) /\
  (forall e, Kernel.parseKconfig os C = (None, Some e) ->
     (Kernel.KconfigFile C = "" \/ fst (Kernel.ReadFile os (Kernel.KconfigFile C)) = None) /\
     fst (Kernel.readKconfigGzip os "/proc/config.gz") = None /\
     (snd (Kernel.ReadFile os "/proc/sys/kernel/osrelease") = Some e \/
      snd (Kernel.ReadFile os ("/boot/config-" ++
             TrimSpace (default "" (fst (Kernel.ReadFile os "/proc/sys/kernel/osrelease"))))) = Some e)).
Proof.
  assert (Hfirst : forall (r : option string),
    (if (0 <? String.length (Kernel.KconfigFile C))%nat then fst (Kernel.ReadFile os (Kernel.KconfigFile C))
     else None) = r -> r = None ->
    Kernel.KconfigFile C = "" \/ fst (Kernel.ReadFile os (Kernel.KconfigFile C)) = None).
  { intros r Hr ->. destruct (Kernel.KconfigFile C) as [|a s] eqn:HK; [by left|]. by right. }
  unfold Kernel.parseKconfig. split; [|split].
  - intros Hne raw Hraw.
    assert (Hlt : (0 <? String.length (Kernel.KconfigFile C))%nat = true)
      by (destruct (Kernel.KconfigFile C); [done|reflexivity]).
    rewrite Hlt, Hraw. reflexivity.
  - intros H Hopen Hgz.
    assert (H1 : (if (0 <? String.length (Kernel.KconfigFile C))%nat
                  then fst (Kernel.ReadFile os (Kernel.KconfigFile C)) else None) = None).
    { destruct H as [H|H]; [by rewrite H|]. by destruct (0 <? _)%nat. }
    rewrite H1. unfold Kernel.readKconfigGzip. rewrite Hopen, Hgz.
    by destruct (Kernel.ReadAll os "/proc/config.gz").
  - intros e.
    destruct (if (0 <? String.length (Kernel.KconfigFile C))%nat
              then fst (Kernel.ReadFile os (Kernel.KconfigFile C)) else None) as [r1|] eqn:H1;
      [done|].
    destruct (fst (Kernel.readKconfigGzip os "/proc/config.gz")) as [r2|] eqn:H2; [done|].
    pose proof (Hfirst None eq_refl eq_refl) as Hf.
    destruct (Kernel.ReadFile os "/proc/sys/kernel/osrelease") as [unameRaw [err|]] eqn:H3.
    + intros [= <-]. split; [done|]. split; [done|]. left. done.
    + destruct (Kernel.ReadFile os ("/boot/config-" ++ TrimSpace (default "" unameRaw)))
        as [raw' [err'|]] eqn:H4; [|done].
      intros [= <-]. split; [done|]. split; [done|]. right. simpl. by rewrite H4.
Qed.

(** ** kconfig and nodename legacy rules *)

Lemma SplitN2_app c k v : has_no c k = true -> SplitN2 c (k ++ String c v) = Some (k, v).
Proof.
  induction k as [|a k IH]; intros Hk.
  - simpl. by rewrite Ascii.eqb_refl.
  - rewrite append_cons. simpl. rewrite has_no_cons in Hk. apply andb_prop in Hk as [Ha Hk].
    apply negb_true_iff in Ha. by rewrite Ha, IH.
Qed.
Lemma SplitN2_no c s : has_no c s = true -> SplitN2 c s = None.
Proof.
  induction s as [|a s IH]; simpl; [done|]. rewrite has_no_cons. intros H.
  apply andb_prop in H as [Ha H]. apply negb_true_iff in Ha. by rewrite Ha, IH.
Qed.

(** X8. [kconfig.UnmarshalJSON]: a JSON decoding error is returned and
    leaves the entry unchanged.  Otherwise there is no error and the name
    never contains '='.  A string "NAME" without '=' gives the entry NAME
    with value "true".  A string "NAME=VALUE", with no '=' in NAME, gives
    NAME and VALUE; VALUE may itself contain '='. *)
Theorem kconfig_UnmarshalJSON_entries json (c : Rules.kconfig) data :
  (forall err, json data = inr err -> Rules.kconfig_UnmarshalJSON json c data = (c, Some err)) /\
  (forall raw, json data = inl raw ->
     snd (Rules.kconfig_UnmarshalJSON json c data) = None /\
     has_no "=" (Rules.Name (fst (Rules.kconfig_UnmarshalJSON json c data))) = true /\
     (has_no "=" raw = true ->
        fst (Rules.kconfig_UnmarshalJSON json c data) = {| Rules.Name := raw; Rules.Value := "true" |}) /\
     (forall n v, has_no "=" n = true -> raw = n ++ String "=" v ->
        fst (Rules.kconfig_UnmarshalJSON json c data) = {| Rules.Name := n; Rules.Value := v |})).
Proof.
  unfold Rules.kconfig_UnmarshalJSON. split.
  - intros err ->. done.
  - intros raw ->. split; [by destruct (SplitN2 "=" raw) as [[? ?]|]|]. split.
    + destruct (SplitN2 "=" raw) as [[n v]|] eqn:Hs; simpl.
      * by apply SplitN2_Some in Hs as [_ ?].
      * by apply SplitN2_None.
    + split.
      * intros Hno. by rewrite SplitN2_no.
      * intros n v Hn ->. by rewrite SplitN2_app.
Qed.

Lemma match_kconfigs_spec o ks :
  Rules.match_kconfigs o ks = true <-> Forall (fun f => o !! Rules.Name f = Some (Rules.Value f)) ks.
Proof.
  induction ks as [|f ks IH]; simpl; [split; [by constructor|done]|].
  rewrite Forall_cons. destruct (o !! Rules.Name f) as [v|] eqn:Hv.
  - destruct (String.eqb (Rules.Value f) v) eqn:He.
    + apply String.eqb_eq in He as ->. rewrite IH. tauto.
    + split; [done|]. intros [[= ->] _]. by rewrite String.eqb_refl in He.
  - split; [done|]. by intros [? _].
Qed.

(** X9. [KconfigRule.Match]: without kernel config options it fails with
    "kernel config options not available".  Otherwise there is no error
    and it matches exactly when every entry's name is present with exactly
    the entry's value (so an empty rule matches). *)
Theorem KconfigRule_Match_spec options (kconfigs : Rules.KconfigRule) :
  (options = None ->
     Rules.KconfigRule_Match options kconfigs =
       (false, Some (ErrExternal "kernel config options not available"))) /\
  (forall o, options = Some o ->
     snd (Rules.KconfigRule_Match options kconfigs) = None /\
     (fst (Rules.KconfigRule_Match options kconfigs) = true <->
      Forall (fun f => o !! Rules.Name f = Some (Rules.Value f)) kconfigs)).
Proof.
  split; [by intros ->|]. intros o ->. split; [done|]. apply match_kconfigs_spec.
Qed.

Lemma nodename_loop_spec MatchString nm n :
  Rules.nodename_loop MatchString nm n = true <->
  exists p, p ∈ n /\ MatchString p nm = (true, None).
Proof.
  induction n as [|p n IH]; simpl.
  - split; [done|]. intros (p & Hp & _). by apply elem_of_nil in Hp.
  - destruct (MatchString p nm) as [[] [e|]] eqn:Hm.
    + rewrite IH. split.
      * intros (q & Hq & Hqm). exists q. split; [by right|done].
      * intros (q & Hq & Hqm). apply elem_of_cons in Hq as [->|Hq]; [congruence|eauto].
    + split; [intros _; exists p; split; [left|done]|done].
    + rewrite IH. split.
      * intros (q & Hq & Hqm). exists q. split; [by right|done].
      * intros (q & Hq & Hqm). apply elem_of_cons in Hq as [->|Hq]; [congruence|eauto].
    + rewrite IH. split.
      * intros (q & Hq & Hqm). exists q. split; [by right|done].
      * intros (q & Hq & Hqm). apply elem_of_cons in Hq as [->|Hq]; [congruence|eauto].
Qed.

(** X10. [NodenameRule.Match]: without a node name it fails with "node name
    not available".  Otherwise it never returns an error: invalid patterns
    are skipped, and it matches exactly when some pattern matches the node
    name without error. *)
Theorem NodenameRule_Match_spec MatchString nodeName (n : Rules.NodenameRule) :
  (nodeName = None ->
     Rules.NodenameRule_Match MatchString nodeName n =
       (false, Some (ErrExternal "node name not available"))) /\
  (forall nm, nodeName = Some nm ->
     snd (Rules.NodenameRule_Match MatchString nodeName n) = None /\
     (fst (Rules.NodenameRule_Match MatchString nodeName n) = true <->
      exists p, p ∈ n /\ MatchString p nm = (true, None))).
Proof.
  split; [by intros ->|]. intros nm ->. split; [done|]. apply nodename_loop_spec.
Qed.

(** ** Template cache of v1alpha1 *)

Section CacheProperties.
Context {MatchExpressionSet Template : Type}
  `{!MatchExpressionEval MatchExpressionSet} {case_tables : CaseTables} `{!TemplateEngine Template}.
Implicit Types (features : gmap string DomainFeatures) (r : Rule MatchExpressionSet Template).

Lemma set_labelsTemplate_id r : set_labelsTemplate r (labelsTemplate r) = r.
Proof. by destruct r. Qed.

Lemma set_labelsTemplate_twice r o1 o2 :
  set_labelsTemplate (set_labelsTemplate r o1) o2 = set_labelsTemplate r o2.
Proof. by destruct r. Qed.

(** X1. The template cache of v1alpha1's [Rule.executeLabelsTemplate] (both
    versions, the label-map one and the text one).  An empty
    [LabelsTemplate] does nothing.  A cached template [t] is what gets
    executed, never re-parsed from [LabelsTemplate], and the rule is left
    unchanged: when [t] executes without error its output, parsed line by
    line with the empty string for lines without "=", is merged over [out]
    (a template label replaces the entry of [out] with the same key); when
    it fails, [out] is returned unchanged with the error, and the text
    version returns the output or the empty string with the error.  With no
    cache the text is parsed and the call behaves exactly as it would with
    the parsed template already cached, which is the rule it returns, even
    when the execution then fails.  A parse error leaves the rule and [out]
    unchanged and is returned as "invalid template".  A second call never
    changes the rule the first one returned. *)
Theorem executeLabelsTemplate_cache r m out :
  (LabelsTemplate r = "" ->
     V1alpha1.executeLabelsTemplate r m out = (r, (out, None)) /\
     V1alpha1Text.executeLabelsTemplate r m = (r, ("", None))) /\
  (forall t, LabelsTemplate r <> "" -> labelsTemplate r = Some t ->
     (snd (template_Execute t m) = None ->
        V1alpha1.executeLabelsTemplate r m out =
          (r, (parse_lines "" (fst (template_Execute t m)) ∅ ∪ out, None)) /\
        V1alpha1Text.executeLabelsTemplate r m = (r, (fst (template_Execute t m), None))) /\
     (forall err, snd (template_Execute t m) = Some err ->
        V1alpha1.executeLabelsTemplate r m out = (r, (out, Some err)) /\
        V1alpha1Text.executeLabelsTemplate r m = (r, ("", Some err)))) /\
  (forall t, LabelsTemplate r <> "" -> labelsTemplate r = None ->
     template_Parse (LabelsTemplate r) = inl t ->
     V1alpha1.executeLabelsTemplate r m out =
       V1alpha1.executeLabelsTemplate (set_labelsTemplate r (Some t)) m out /\
     V1alpha1Text.executeLabelsTemplate r m =
       V1alpha1Text.executeLabelsTemplate (set_labelsTemplate r (Some t)) m /\
     fst (V1alpha1.executeLabelsTemplate r m out) = set_labelsTemplate r (Some t) /\
     fst (V1alpha1Text.executeLabelsTemplate r m) = set_labelsTemplate r (Some t)) /\
  (forall e, LabelsTemplate r <> "" -> labelsTemplate r = None ->
     template_Parse (LabelsTemplate r) = inr e ->
     V1alpha1.executeLabelsTemplate r m out = (r, (out, Some (ErrInvalidTemplate e))) /\
     V1alpha1Text.executeLabelsTemplate r m = (r, ("", Some (ErrInvalidTemplate e)))) /\
  (forall m' out',
     fst (V1alpha1.executeLabelsTemplate (fst (V1alpha1.executeLabelsTemplate r m out)) m' out') =
     fst (V1alpha1.executeLabelsTemplate r m out)).
Proof.
  unfold V1alpha1.executeLabelsTemplate, V1alpha1Text.executeLabelsTemplate,
    V1alpha1.newTemplateHelper.
  split; [|split; [|split; [|split]]].
  - intros ->. done.
  - intros t Hne Ht. apply String.eqb_neq in Hne. rewrite Hne, Ht.
    unfold V1alpha1.expandMap, V1alpha1Text.execute.
    destruct (template_Execute t m) as [o [err|]]; simpl.
    + split; [done|]. intros err' [= ->]. done.
    + split; [done|]. done.
  - intros t Hne Ht Hp. apply String.eqb_neq in Hne. rewrite Hne, Ht, Hp.
    cbn [LabelsTemplate labelsTemplate set_labelsTemplate]. rewrite Hne.
    repeat split; by destruct (V1alpha1.expandMap t m) as [? [?|]].
  - intros e Hne Ht Hp. apply String.eqb_neq in Hne. by rewrite Hne, Ht, Hp.
  - intros m' out'.
    destruct (String.eqb (LabelsTemplate r) "") eqn:He; [simpl; by rewrite He|].
    destruct (labelsTemplate r) as [t|] eqn:Ht.
    + destruct (V1alpha1.expandMap t m) as [? [?|]]; simpl; rewrite ?He, ?Ht;
        by destruct (V1alpha1.expandMap t m') as [? [?|]].
    + destruct (template_Parse (LabelsTemplate r)) as [t|e] eqn:Hp.
      * destruct (V1alpha1.expandMap t m) as [? [?|]]; simpl; rewrite ?He; simpl;
          by destruct (V1alpha1.expandMap t m') as [? [?|]].
      * simpl. by rewrite ?He, ?Ht, ?Hp.
Qed.

Lemma fills_refl r : fills r r.
Proof.
  exists (labelsTemplate r). split; [by rewrite set_labelsTemplate_id|].
  split; [done|]. intros ->. by left.
Qed.

Lemma fills_trans r r' r'' : fills r r' -> fills r' r'' -> fills r r''.
Proof.
  intros (o1 & -> & H1s & H1n) (o2 & -> & H2s & H2n).
  exists o2. rewrite set_labelsTemplate_twice. split; [done|]. split.
  - intros t Ht. apply H2s. simpl. by apply H1s.
  - intros Hn. destruct (H1n Hn) as [->|(t & -> & Hp)].
    + destruct (H2n eq_refl) as [->|(t & -> & Hp)]; [by left|]. right. eauto.
    + right. exists t. split; [|done]. by apply H2s.
Qed.

Lemma executeLabelsTemplate_fills r m out : fills r (fst (V1alpha1.executeLabelsTemplate r m out)).
Proof.
  unfold V1alpha1.executeLabelsTemplate, V1alpha1.newTemplateHelper.
  destruct (String.eqb (LabelsTemplate r) ""); [apply fills_refl|].
  destruct (labelsTemplate r) as [t|] eqn:Ht.
  - destruct (V1alpha1.expandMap t m) as [? [?|]]; apply fills_refl.
  - destruct (template_Parse (LabelsTemplate r)) as [t|e] eqn:Hp; [|apply fills_refl].
    assert (H : fills r (set_labelsTemplate r (Some t))).
    { exists (Some t). split; [done|]. split; [congruence|]. intros _. eauto. }
    by destruct (V1alpha1.expandMap t m) as [? [?|]].
Qed.

Lemma matchAny_loop_fills r features alts matched ret :
  fills r (fst (V1alpha1.matchAny_loop r features alts matched ret)).
Proof.
  revert r matched ret. induction alts as [|a alts IH]; intros r matched ret; simpl; [apply fills_refl|].
  destruct (MatchAnyElem_match features a) as [[m|] [e|]]; try apply fills_refl; [|apply IH].
  destruct (labelsTemplate r); [|apply fills_refl].
  pose proof (executeLabelsTemplate_fills r m ret) as Hf.
  destruct (V1alpha1.executeLabelsTemplate r m ret) as [r' [ret' [e|]]]; [done|].
  eapply fills_trans; [exact Hf|apply IH].
Qed.

Lemma Execute_matchFeatures_fills r features ret :
  fills r (fst (V1alpha1.Execute_matchFeatures r features ret)).
Proof.
  unfold V1alpha1.Execute_matchFeatures.
  destruct (MatchFeatures r); [apply fills_refl|].
  destruct (FeatureMatcher_match features _) as [[m|] [e|]]; try apply fills_refl.
  pose proof (executeLabelsTemplate_fills r m ret) as Hf.
  by destruct (V1alpha1.executeLabelsTemplate r m ret) as [r' [ret' [e|]]].
Qed.

(** X2. v1alpha1's [Rule.Execute] changes nothing in the rule but its
    template cache: a cache already set is kept, and an unset one either
    stays unset or receives the parse of [LabelsTemplate]. *)
Theorem Execute_only_fills_cache r features :
  exists o, fst (V1alpha1.Execute r features) = set_labelsTemplate r o /\
    (forall t, labelsTemplate r = Some t -> o = Some t) /\
    (labelsTemplate r = None ->
       o = None \/ exists t, o = Some t /\ template_Parse (LabelsTemplate r) = inl t).
Proof.
  change (fills r (fst (V1alpha1.Execute r features))).
  unfold V1alpha1.Execute. destruct (MatchAny r) as [|a alts]; [apply Execute_matchFeatures_fills|].
  pose proof (matchAny_loop_fills r features (a :: alts) false ∅) as Hf.
  destruct (V1alpha1.matchAny_loop r features (a :: alts) false ∅) as [r' [[[] ret'] [e|]]];
    simpl in *; try done.
  eapply fills_trans; [exact Hf|apply Execute_matchFeatures_fills].
Qed.

End CacheProperties.

(** ** Custom source *)

Section CustomProperties.
Context {MatchExpressionSet Template : Type}
  `{!MatchExpressionEval MatchExpressionSet} {case_tables : CaseTables} `{!TemplateEngine Template}.
Context {PciIDRule UsbIDRule LoadedKModRule CpuIDRule KconfigRule NodenameRule : Type}
  `{!legacyRule PciIDRule} `{!legacyRule UsbIDRule} `{!legacyRule LoadedKModRule}
  `{!legacyRule CpuIDRule} `{!legacyRule KconfigRule} `{!legacyRule NodenameRule}.

Local Abbreviation CustomRule :=
  (@CustomRule MatchExpressionSet Template PciIDRule UsbIDRule LoadedKModRule CpuIDRule
     KconfigRule NodenameRule).
Implicit Types (features : gmap string DomainFeatures) (r : Rule MatchExpressionSet Template).

(** X3. [customSource.SetConfig] compiles the templates eagerly.  It
    fails (the panic of [template.Must]) exactly when some modern rule has
    a non-empty [LabelsTemplate] that does not parse.  Otherwise the
    resulting config has the same entries in the same order: legacy rules
    and rules with an empty template are unchanged, and every other rule
    receives the compiled template of its [LabelsTemplate]. *)
Theorem SetConfig_compiles (conf : list CustomRule) :
  (SetConfig conf = None <->
   Exists (fun spec => exists r e, crRule spec = Some r /\ LabelsTemplate r <> "" /\
                                    template_Parse (LabelsTemplate r) = inr e) conf) /\
  (forall conf', SetConfig conf = Some conf' ->
   Forall2 (fun spec spec' =>
     crLegacyRule spec' = crLegacyRule spec /\
     (crRule spec = None -> crRule spec' = None) /\
     (forall r, crRule spec = Some r ->
        (LabelsTemplate r = "" -> crRule spec' = Some r) /\
        (LabelsTemplate r <> "" -> exists t, template_Parse (LabelsTemplate r) = inl t /\
                                           crRule spec' = Some (set_labelsTemplate r (Some t)))))
     conf conf').
Proof.
  split.
  - induction conf as [|spec conf IH]; simpl.
    + split; [done|]. intros H. inversion H.
    + rewrite Exists_cons, <- IH. unfold Custom.compile_rule.
      destruct (crRule spec) as [r|].
      * destruct (String.eqb (LabelsTemplate r) "") eqn:He.
        { apply String.eqb_eq in He.
          split; [destruct (SetConfig conf); [done|by right]|].
          intros [(r' & e & [= <-] & Hne & _)| ->]; [done|done]. }
        destruct (template_Parse (LabelsTemplate r)) as [t|e] eqn:Hp.
        { split; [destruct (SetConfig conf); [done|by right]|].
          intros [(r' & e & [= <-] & _ & Hp')| ->]; [congruence|done]. }
        { split; [intros _; left; exists r, e; apply String.eqb_neq in He; done|done]. }
      * split; [destruct (SetConfig conf); [done|by right]|].
        intros [(r' & e & [=] & _)| ->]; done.
  - induction conf as [|spec conf IH]; simpl; intros conf'.
    + intros [= <-]. constructor.
    + unfold Custom.compile_rule.
      destruct (SetConfig conf) as [rest|]; [|by destruct (crRule spec) as [r|];
        [destruct (String.eqb _ _); [|destruct (template_Parse _)]|]].
      specialize (IH rest eq_refl).
      destruct (crRule spec) as [r|] eqn:Hr.
      * destruct (String.eqb (LabelsTemplate r) "") eqn:He.
        { intros [= <-]. constructor; [|done]. simpl. split; [done|]. split; [congruence|].
          intros r' Hr'; rewrite Hr in Hr'; injection Hr' as <-. apply String.eqb_eq in He. split; [done|intros Hx; exfalso; exact (Hx He)]. }
        destruct (template_Parse (LabelsTemplate r)) as [t|e] eqn:Hp; [|done].
        intros [= <-]. constructor; [|done]. simpl. split; [done|]. split; [congruence|].
        intros r' Hr'; rewrite Hr in Hr'; injection Hr' as <-. apply String.eqb_neq in He. split; [intros Hx; exfalso; exact (He Hx)|]. eauto.
      * intros [= <-]. constructor; [|done]. split; [done|]. split; [done|intros r' Hr'; congruence].
Qed.

Lemma GetLabels_loop_source features (rules : list CustomRule) labels log k v :
  fst (GetLabels_loop features rules labels log) !! k = Some v ->
  labels !! k = Some v \/
  exists rl out, rl ∈ rules /\ CustomRule_execute rl features = (Some out, None) /\ out !! k = Some v.
Proof.
  revert labels log. induction rules as [|rl rules IH]; intros labels log; simpl; [by left|].
  destruct (CustomRule_execute rl features) as [o [e|]] eqn:Hx.
  - intros H. destruct (IH _ _ H) as [?|(r' & out & ? & ? & ?)]; [by left|].
    right. exists r', out. split; [by right|done].
  - intros H. destruct (IH _ _ H) as [Hl|(r' & out & ? & ? & ?)].
    + destruct o as [out|]; simpl in Hl.
      * apply lookup_union_Some_raw in Hl as [Hl|[_ Hl]]; [|by left].
        right. exists rl, out. split; [left|done].
      * rewrite (left_id_L ∅ (∪)) in Hl. by left.
    + right. exists r', out. split; [by right|done].
Qed.

Lemma GetLabels_loop_app features (pre post : list CustomRule) labels log :
  fst (GetLabels_loop features (pre ++ post) labels log) =
  fst (GetLabels_loop features post (fst (GetLabels_loop features pre labels log)) []).
Proof.
  revert labels log. induction pre as [|rl pre IH]; intros labels log; simpl.
  - apply GetLabels_loop_labels.
  - destruct (CustomRule_execute rl features) as [o [e|]]; apply IH.
Qed.

Lemma GetLabels_loop_keep features (rules : list CustomRule) labels log k :
  Forall (fun rl => forall out, CustomRule_execute rl features = (Some out, None) -> out !! k = None) rules ->
  fst (GetLabels_loop features rules labels log) !! k = labels !! k.
Proof.
  intros Hf. revert labels log. induction Hf as [|rl rules Hrl _ IH]; intros labels log; simpl; [done|].
  destruct (CustomRule_execute rl features) as [o [e|]] eqn:Hx; [apply IH|].
  rewrite IH. destruct o as [out|]; simpl.
  - rewrite lookup_union_r; [done|]. by apply Hrl.
  - by rewrite (left_id_L ∅ (∪)).
Qed.

Lemma GetLabels_loop_errors features (rules : list CustomRule) labels log :
  snd (GetLabels_loop features rules labels log) =
  (log ++ omap (fun rl => snd (CustomRule_execute rl features)) rules)%list.
Proof.
  revert labels log. induction rules as [|rl rules IH]; intros labels log; simpl.
  - by rewrite app_nil_r.
  - destruct (CustomRule_execute rl features) as [o [e|]]; simpl; rewrite IH; [|done].
    by rewrite <- app_assoc.
Qed.

(** X4. Precedence and logging of [customSource.GetLabels].  Every label
    it returns comes from the output of some rule that executed without
    error.  A label output by a rule is in the result unless a later rule
    of the concatenation static ++ config ++ directory also outputs that
    key, so later rules override earlier ones.  The log holds the error of
    every failing rule, in rule order, and nothing else. *)
Theorem GetLabels_precedence features (staticConfig config directoryConfig : list CustomRule) :
  (forall labels k v,
     fst (fst (GetLabels features staticConfig config directoryConfig)) = Some labels ->
     labels !! k = Some v ->
     exists rl out, rl ∈ (staticConfig ++ config ++ directoryConfig)%list /\
       CustomRule_execute rl features = (Some out, None) /\ out !! k = Some v) /\
  (forall pre rl post out k v,
     (staticConfig ++ config ++ directoryConfig)%list = (pre ++ rl :: post)%list ->
     CustomRule_execute rl features = (Some out, None) -> out !! k = Some v ->
     Forall (fun rl' => forall out', CustomRule_execute rl' features = (Some out', None) ->
                                     out' !! k = None) post ->
     exists labels, fst (fst (GetLabels features staticConfig config directoryConfig)) = Some labels /\
                    labels !! k = Some v) /\
  snd (GetLabels features staticConfig config directoryConfig) =
    omap (fun rl => snd (CustomRule_execute rl features)) ((staticConfig ++ config ++ directoryConfig)%list).
Proof.
  unfold GetLabels.
  pose proof (GetLabels_loop_errors features ((staticConfig ++ config ++ directoryConfig)%list) ∅ []) as Herr.
  pose proof (GetLabels_loop_source features ((staticConfig ++ config ++ directoryConfig)%list) ∅ []) as Hsrc.
  assert (Hprec : forall pre rl post out k v,
     (staticConfig ++ config ++ directoryConfig)%list = (pre ++ rl :: post)%list ->
     CustomRule_execute rl features = (Some out, None) -> out !! k = Some v ->
     Forall (fun rl' => forall out', CustomRule_execute rl' features = (Some out', None) ->
                                     out' !! k = None) post ->
     fst (GetLabels_loop features ((staticConfig ++ config ++ directoryConfig)%list) ∅ []) !! k = Some v).
  { intros pre rl post out k v -> Hx Hk Hpost.
    rewrite GetLabels_loop_app. simpl. rewrite Hx.
    rewrite GetLabels_loop_keep by done. simpl. by apply lookup_union_Some_l. }
  destruct (GetLabels_loop features ((staticConfig ++ config ++ directoryConfig)%list) ∅ []) as [labels log].
  simpl in *. split; [|split; [|done]].
  - intros labels' k v [= <-] Hk. destruct (Hsrc k v Hk) as [H|H]; [by rewrite lookup_empty in H|done].
  - intros pre rl post out k v Heq Hx Hk Hpost. exists labels. split; [done|]. by eapply Hprec.
Qed.

(** X5. [CustomRule.execute] dispatches on the legacy variant first: when
    it is set, the modern variant is ignored.  Every error is wrapped: with
    the legacy rule's name, with the modern rule's name, or the "empty
    rule" error when neither is set.  Without error, the result is the
    executed variant's result. *)
Theorem CustomRule_execute_dispatch (c : CustomRule) features :
  (forall lr rr, crLegacyRule c = Some lr ->
     CustomRule_execute c features =
     CustomRule_execute {| crLegacyRule := Some lr; crRule := rr |} features) /\
  (forall e, snd (CustomRule_execute c features) = Some e ->
     (exists lr e', crLegacyRule c = Some lr /\ snd (LegacyRule_execute lr features) = Some e' /\
                    e = ErrLegacyRule (LegacyName lr) e') \/
     (exists rr e', crLegacyRule c = None /\ crRule c = Some rr /\
                    snd (Custom.execute rr features) = Some e' /\ e = ErrRule (Name rr) e') \/
     (crLegacyRule c = None /\ crRule c = None /\ e = ErrEmptyRule)) /\
  (snd (CustomRule_execute c features) = None ->
     (exists lr, crLegacyRule c = Some lr /\ CustomRule_execute c features = LegacyRule_execute lr features) \/
     (exists rr, crLegacyRule c = None /\ crRule c = Some rr /\
                 CustomRule_execute c features = Custom.execute rr features)).
Proof.
  unfold CustomRule_execute. split; [|split].
  - intros lr rr ->. done.
  - intros e. destruct (crLegacyRule c) as [lr|] eqn:Hl.
    + destruct (LegacyRule_execute lr features) as [o [e'|]] eqn:Hx; simpl; [|done].
      intros [= <-]. left. exists lr, e'. by rewrite Hx.
    + destruct (crRule c) as [rr|] eqn:Hr.
      * destruct (Custom.execute rr features) as [o [e'|]] eqn:Hx; simpl; [|done].
        intros [= <-]. right; left. exists rr, e'. by rewrite Hx.
      * intros [= <-]. by right; right.
  - destruct (crLegacyRule c) as [lr|] eqn:Hl.
    + destruct (LegacyRule_execute lr features) as [o [e'|]] eqn:Hx; simpl; [done|].
      intros _. left. exists lr. by rewrite Hx.
    + destruct (crRule c) as [rr|] eqn:Hr; [|done].
      destruct (Custom.execute rr features) as [o [e'|]] eqn:Hx; simpl; [done|].
      intros _. right. exists rr. by rewrite Hx.
Qed.

End CustomProperties.

Section MatchAnyProperties.
Context {MatchExpressionSet Template : Type}
  `{!MatchExpressionEval MatchExpressionSet} {case_tables : CaseTables} `{!TemplateEngine Template}.
Implicit Types (features : gmap string DomainFeatures) (r : Rule MatchExpressionSet Template).

Lemma custom_matchAny_loop_template r features t alts matched ret :
  labelsTemplate r = Some t ->
  (forall a, a ∈ alts -> snd (MatchAnyElem_match features a) = None) ->
  (forall a m, a ∈ alts -> MatchAnyElem_match features a = (Some m, None) ->
               snd (template_Execute t m) = None) ->
  Custom.matchAny_loop r features alts matched ret =
    (matched || existsb (alt_matches features) alts, matchAny_accumulate t features alts ret, None).
Proof.
  intros Ht. revert matched ret. induction alts as [|a alts IH]; intros matched ret Herr Htpl; simpl.
  - by rewrite orb_false_r.
  - unfold matchAny_accumulate. simpl. unfold alt_matches at 1.
    assert (Ha : snd (MatchAnyElem_match features a) = None) by (apply Herr; left).
    destruct (MatchAnyElem_match features a) as [[m|] e] eqn:Hm; simpl in Ha; subst e.
    + rewrite Ht. unfold Custom.executeLabelsTemplate. rewrite Ht.
      assert (Hte : snd (template_Execute t m) = None) by (eapply Htpl; [left|done]).
      destruct (template_Execute t m) as [s e] eqn:He; simpl in Hte; subst e.
      rewrite IH; [|intros; apply Herr; by right|intros; eapply Htpl; [by right|done]].
      rewrite bool_decide_true by done. simpl. rewrite orb_true_r. unfold matchAny_accumulate.
      done.
    + rewrite IH; [|intros; apply Herr; by right|intros; eapply Htpl; [by right|done]].
      rewrite bool_decide_false by (by intros [? ?]). done.
Qed.

(** X6. The MatchAny loop of the custom source's [Rule.execute].  With no
    compiled template the loop stops at the first matching alternative,
    keeps the labels unchanged, and evaluates no later alternative.  With a
    compiled template, as long as no alternative and no template execution
    fails, every alternative is evaluated.  The rule then matches if any
    alternative matches, and the labels are the template outputs of all
    matching alternatives, parsed in order.  For a rule with only MatchAny
    alternatives, [execute] returns those labels under the static ones, or
    nil when no alternative matches. *)
Theorem custom_matchAny_semantics r features :
  (forall pre a post m ret,
     labelsTemplate r = None ->
     Forall (fun a' => MatchAnyElem_match features a' = (None, None)) pre ->
     MatchAnyElem_match features a = (Some m, None) ->
     Custom.matchAny_loop r features (pre ++ a :: post) false ret = (true, ret, None)) /\
  (forall t alts matched ret,
     labelsTemplate r = Some t ->
     (forall a, a ∈ alts -> snd (MatchAnyElem_match features a) = None) ->
     (forall a m, a ∈ alts -> MatchAnyElem_match features a = (Some m, None) ->
                  snd (template_Execute t m) = None) ->
     Custom.matchAny_loop r features alts matched ret =
       (matched || existsb (alt_matches features) alts, matchAny_accumulate t features alts ret, None)) /\
  (forall t,
     labelsTemplate r = Some t -> MatchAny r <> [] -> MatchFeatures r = [] ->
     (forall a, a ∈ MatchAny r -> snd (MatchAnyElem_match features a) = None) ->
     (forall a m, a ∈ MatchAny r -> MatchAnyElem_match features a = (Some m, None) ->
                  snd (template_Execute t m) = None) ->
     Custom.execute r features =
       if existsb (alt_matches features) (MatchAny r)
       then (Some (Labels r ∪ matchAny_accumulate t features (MatchAny r) ∅), None)
       else (None, None)).
Proof.
  split; [|split].
  - intros pre a post m ret Ht Hpre Ha. induction Hpre as [|a' pre Ha' _ IH]; simpl.
    + by rewrite Ha, Ht.
    + by rewrite Ha'.
  - intros t alts matched ret Ht. apply custom_matchAny_loop_template, Ht.
  - intros t Ht Hne Hmf Herr Htpl. unfold Custom.execute.
    destruct (MatchAny r) as [|a alts] eqn:Hma; [done|].
    rewrite (custom_matchAny_loop_template r features t); [|done|done|done]. simpl.
    destruct (alt_matches features a || existsb (alt_matches features) alts); [|done].
    unfold Custom.execute_matchFeatures. by rewrite Hmf.
Qed.

End MatchAnyProperties.

Section LabelShape.
Context {MatchExpressionSet Template : Type}
  `{!MatchExpressionEval MatchExpressionSet} {case_tables : CaseTables} `{!TemplateEngine Template}.

(** X7. Labels parsed from a template output have a key without '=' and
    without newline and a value without newline: all keys of v1alpha1's
    [expandMap], and every key the custom source's
    [Rule.executeLabelsTemplate] adds or overwrites.  The key may be empty:
    the line "=v" gives the label "" = "v". *)
Theorem template_labels_shape :
  (forall (t : Template) m labels k v,
     V1alpha1.expandMap t m = (Some labels, None) -> labels !! k = Some v ->
     has_no "=" k = true /\ has_no newline k = true /\ has_no newline v = true) /\
  (forall (r : Rule MatchExpressionSet Template) m out out' k v,
     Custom.executeLabelsTemplate r m out = (out', None) -> out' !! k = Some v ->
     out !! k = Some v \/ (has_no "=" k = true /\ has_no newline k = true /\ has_no newline v = true)) /\
  (forall noValue (out : gmap string string), parse_line noValue out "=v" = <["" := "v"]> out).
Proof.
  split; [|split].
  - intros t m labels k v. unfold V1alpha1.expandMap.
    destruct (template_Execute t m) as [s [e|]]; [done|]. intros [= <-] Hk.
    destruct (parse_lines_shape "" s ∅ k v eq_refl Hk) as [H|H]; [|done].
    by rewrite lookup_empty in H.
  - intros r m out out' k v. unfold Custom.executeLabelsTemplate.
    destruct (labelsTemplate r) as [t|]; [|intros [= <-]; by left].
    destruct (template_Execute t m) as [s [e|]]; [done|]. intros [= <-] Hk.
    by apply (parse_lines_shape "true" s out k v eq_refl).
  - intros noValue out. reflexivity.
Qed.

End LabelShape.

(** C8 counterexample: encoding a wrapper with neither variant set does
    not fail; it yields "null" and no error. *)
Lemma MarshalJSON_empty_no_error :
  MarshalJSON ({| crLegacyRule := None; crRule := None |} : CustomRule') = ("null", None).
Proof. reflexivity. Qed.


(** ** Witnesses *)

Lemma template_output_parsing_witness :
  Custom.executeLabelsTemplate
    (set_labelsTemplate rule_matchany_template (Some {| template_text := example_output |})) ∅ ∅ =
    (parse_lines "true" example_output ∅, None) /\
  Custom.executeLabelsTemplate
    (set_labelsTemplate rule_matchany_template
       (Some {| template_text := "a=1" ++ nbsp ++ String newline ("b" ++ ideographic_space) |}))
    ∅ {[ "a" := "0"; "c" := "2" ]} =
    (<[ "a" := "1" ]> (<[ "b" := "true" ]> {[ "c" := "2" ]}), None) /\
  V1alpha1.expandMap
    {| template_text := "a=1" ++ nbsp ++ String newline ("b" ++ ideographic_space) |} ∅ =
    (Some (<[ "a" := "1" ]> {[ "b" := "" ]}), None) /\
  parse_lines "true" (ideographic_space ++ "flag" ++ String newline "a=1") ∅ =
    parse_lines "true" "a=1" {[ "flag" := "true" ]}.
Proof.
  destruct (template_output_parsing (MatchExpressionSet:=MatchExpressionList)
              (Template:=TextTemplate)) as (Hcustom & Hv1 & Hline & _).
  split.
  { eapply Hcustom; reflexivity. }
  split.
  { etransitivity; [eapply Hcustom; reflexivity|]. vm_compute. reflexivity. }
  split.
  { etransitivity; [apply Hv1; reflexivity|]. vm_compute. reflexivity. }
  rewrite (Hline "true" (ideographic_space ++ "flag") "a=1" ∅ eq_refl).
  vm_compute. reflexivity.
Defined.

Lemma FeatureMatcher_match_AND_witness :
  snd (FeatureMatcher_match snapshot_val1 [kf1_key1; vf1_in ["val-1"]]) = None /\
  is_Some (fst (FeatureMatcher_match snapshot_val1 [kf1_key1; vf1_in ["val-1"]])) /\
  FeatureMatcher_match snapshot_val1 ([kf1_key1] ++ vf1_in ["val-2"] :: [missing_term])%list =
    (None, None).
Proof.
  assert (Hres : Forall (term_resolves snapshot_val1) [kf1_key1; vf1_in ["val-1"]]).
  { constructor; [|constructor; [|constructor]]; do 3 eexists; reflexivity. }
  destruct (FeatureMatcher_match_AND snapshot_val1 _ Hres) as (H1 & H2 & H3).
  split; [exact H1|split].
  - apply H2. constructor; [|constructor; [|constructor]];
      (do 3 eexists; split; [reflexivity|intros Hv; vm_compute in Hv; discriminate Hv]).
  - apply H3.
    + constructor; [|constructor].
      do 3 eexists; split; [reflexivity|intros Hv; vm_compute in Hv; discriminate Hv].
    + do 3 eexists. reflexivity.
    + intros (d & f & v & Hev & Hv). apply Hv. vm_compute in Hev. injection Hev as _ _ Hv0. symmetry. exact Hv0.
Defined.


Lemma execute_error_no_labels_witness :
  snd (Custom.execute rule_missing_domain (snapshot ∅)) = Some (ErrUnknownDomain "missing") /\
  fst (Custom.execute rule_missing_domain (snapshot ∅)) = None.
Proof.
  assert (H : snd (Custom.execute rule_missing_domain (snapshot ∅)) = Some (ErrUnknownDomain "missing"))
    by (vm_compute; reflexivity).
  split; [exact H|].
  exact (proj1 (execute_error_no_labels rule_missing_domain (snapshot ∅)) _ H).
Defined.

Lemma execute_static_labels_last_witness :
  Custom.execute rule_template_override snapshot_val1 = (Some {[ "label-1" := "static" ]}, None) /\
  (exists ret, {[ "label-1" := "static" ]} = Labels rule_template_override ∪ ret) /\
  snd (V1alpha1.Execute rule_template_override snapshot_val1) =
    (Some {[ "label-1" := "static" ]}, None) /\
  Custom.execute rule_static ∅ = (Some (Labels rule_static), None) /\
  Custom.execute rule_matchany_nomatch snapshot_val1 = (None, None) /\
  snd (V1alpha1.Execute rule_matchany_nomatch snapshot_val1) = (None, None) /\
  Custom.execute rule_any_features_nomatch snapshot_val1 = (None, None) /\
  snd (V1alpha1.Execute rule_any_features_nomatch snapshot_val1) = (None, None).
Proof.
  assert (E1 : Custom.execute rule_template_override snapshot_val1 =
                 (Some {[ "label-1" := "static" ]}, None)) by (vm_compute; reflexivity).
  split; [exact E1|split].
  { apply (proj1 (execute_static_labels_last rule_template_override snapshot_val1)).
    by rewrite E1. }
  split; [vm_compute; reflexivity|split].
  { exact (proj1 (proj1 (proj2 (proj2 (execute_static_labels_last rule_static ∅))) eq_refl eq_refl)). }
  destruct (proj1 (proj2 (proj2 (proj2 (execute_static_labels_last rule_matchany_nomatch
                                       snapshot_val1)))) ltac:(discriminate)
              (ltac:(constructor; [vm_compute; reflexivity|constructor])))
    as [Hc0 Hv0].
  split; [exact Hc0|split; [exact Hv0|]].
  destruct (proj2 (proj2 (proj2 (proj2 (execute_static_labels_last rule_any_features_nomatch
                                         snapshot_val1)))) ltac:(discriminate)
              ltac:(vm_compute; reflexivity)) as [[Hc|(e & _ & Hl)] [Hv|(e' & _ & Hl')]];
    try (vm_compute in Hl; discriminate Hl); try (vm_compute in Hl'; discriminate Hl').
  split; [exact Hc|exact Hv].
Defined.

Lemma LegacyRule_execute_semantics_witness :
  MatchOn legacy_rule_example =
    ([pci_matcher (false, None)] ++ empty_legacy_matcher ::
     [kconfig_matcher (false, Some (ErrExternal "kernel config options not available"))])%list /\
  Forall (fun m => LegacyMatcher_match m = (false, None)) [pci_matcher (false, None)] /\
  LegacyMatcher_match empty_legacy_matcher = (true, None) /\
  LegacyRule_execute legacy_rule_example ∅ = (Some {[ "my.custom.feature" := "true" ]}, None).
Proof.
  assert (H1 : MatchOn legacy_rule_example =
    ([pci_matcher (false, None)] ++ empty_legacy_matcher ::
     [kconfig_matcher (false, Some (ErrExternal "kernel config options not available"))])%list)
    by reflexivity.
  assert (H2 : Forall (fun m => LegacyMatcher_match m = (false, None)) [pci_matcher (false, None)])
    by (constructor; [reflexivity|constructor]).
  assert (H3 : LegacyMatcher_match empty_legacy_matcher = (true, None)) by reflexivity.
  split; [exact H1|split; [exact H2|split; [exact H3|]]].
  exact (proj1 (proj2 (LegacyRule_execute_semantics legacy_rule_example ∅)) _ _ _ H1 H2 H3).
Defined.

Lemma GetLabels_isolates_rule_errors_witness :
  snd (CustomRule_execute ({| crLegacyRule := None; crRule := None |} : CustomRule') ∅) =
    Some ErrEmptyRule /\
  fst (GetLabels_loop ∅ ([] ++ {| crLegacyRule := None; crRule := None |} ::
                           [{| crLegacyRule := Some legacy_rule_example; crRule := None |}])%list ∅ []) =
    fst (GetLabels_loop ∅ ([] ++ [{| crLegacyRule := Some legacy_rule_example; crRule := None |}] : list CustomRule')%list ∅ []).
Proof.
  assert (H : snd (CustomRule_execute ({| crLegacyRule := None; crRule := None |} : CustomRule') ∅) =
              Some ErrEmptyRule) by reflexivity.
  split; [exact H|].
  exact (proj1 (proj2 (proj2 (GetLabels_isolates_rule_errors ∅ [] [] []))
                  [] _ [{| crLegacyRule := Some legacy_rule_example; crRule := None |}] ∅ [] _ H)).
Defined.

Lemma UnmarshalJSON_dialect_witness :
  yaml_Unmarshal_raw legacy_document =
    inl (list_to_map [("name", ""); ("matchOn", "")] : gmap string string) /\
  (exists k v, (list_to_map [("name", ""); ("matchOn", "")] : gmap string string) !! k = Some v /\
               ToLower k = "matchon") /\
  UnmarshalJSON ({| crLegacyRule := None; crRule := None |} : CustomRule') legacy_document =
    ({| crLegacyRule := Some {| LegacyName := legacy_document; Value := None; MatchOn := [] |};
        crRule := None |}, None).
Proof.
  assert (H1 : yaml_Unmarshal_raw legacy_document =
    inl (list_to_map [("name", ""); ("matchOn", "")] : gmap string string)) by reflexivity.
  assert (H2 : exists k v, (list_to_map [("name", ""); ("matchOn", "")] : gmap string string) !! k = Some v /\
               ToLower k = "matchon") by (exists "matchOn", ""; split; reflexivity).
  split; [exact H1|split; [exact H2|]].
  exact (proj1 (UnmarshalJSON_dialect ({| crLegacyRule := None; crRule := None |} : CustomRule')
                  legacy_document) _ H1 H2).
Defined.

Lemma executeLabelsTemplate_cache_witness :
  V1alpha1.executeLabelsTemplate rule_probe_stale_cache ∅ {[ "a" := "0"; "b" := "x" ]} =
    (rule_probe_stale_cache, ({[ "a" := "1"; "b" := "x" ]}, None)) /\
  V1alpha1Text.executeLabelsTemplate rule_probe_stale_cache ∅ = (rule_probe_stale_cache, ("a=1", None)) /\
  V1alpha1.executeLabelsTemplate rule_probe_cached_fail ∅ {[ "a" := "0" ]} =
    (rule_probe_cached_fail, ({[ "a" := "0" ]}, Some (ErrExternal "fail"))) /\
  V1alpha1Text.executeLabelsTemplate rule_probe_cached_fail ∅ =
    (rule_probe_cached_fail, ("", Some (ErrExternal "fail"))) /\
  V1alpha1.executeLabelsTemplate rule_probe_uncached_fail ∅ {[ "a" := "0" ]} =
    (rule_probe_cached_fail, ({[ "a" := "0" ]}, Some (ErrExternal "fail"))) /\
  fst (V1alpha1.executeLabelsTemplate rule_matchany_template ∅ ∅) = rule_matchany_compiled /\
  V1alpha1.executeLabelsTemplate rule_probe_unparsable ∅ {[ "a" := "0" ]} =
    (rule_probe_unparsable, ({[ "a" := "0" ]}, Some (ErrInvalidTemplate (ErrExternal "unclosed action")))) /\
  fst (V1alpha1.executeLabelsTemplate
         (fst (V1alpha1.executeLabelsTemplate rule_probe_uncached_fail ∅ ∅)) ∅ {[ "a" := "0" ]}) =
    rule_probe_cached_fail.
Proof.
  destruct (executeLabelsTemplate_cache rule_probe_stale_cache ∅ {[ "a" := "0"; "b" := "x" ]})
    as (_ & Hstale & _).
  destruct (Hstale {| probe_text := "a=1" |} ltac:(discriminate) eq_refl) as [Hok _].
  destruct (Hok eq_refl) as [E1 E2].
  split; [rewrite E1; vm_compute; reflexivity|split; [exact E2|]].
  destruct (executeLabelsTemplate_cache rule_probe_cached_fail ∅ {[ "a" := "0" ]})
    as (_ & Hfail & _).
  destruct (Hfail {| probe_text := "{{fail}}" |} ltac:(discriminate) eq_refl) as [_ Herr].
  destruct (Herr (ErrExternal "fail") eq_refl) as [E3 E4].
  split; [exact E3|split; [exact E4|]].
  destruct (executeLabelsTemplate_cache rule_probe_uncached_fail ∅ {[ "a" := "0" ]})
    as (_ & _ & Hparse & _ & Hagain).
  destruct (Hparse {| probe_text := "{{fail}}" |} ltac:(discriminate) eq_refl eq_refl)
    as (E5 & _ & _).
  split; [rewrite E5; exact E3|split].
  { exact (proj1 (proj2 (proj2 ((proj1 (proj2 (proj2 (executeLabelsTemplate_cache
             rule_matchany_template ∅ ∅)))) {| template_text := "a=1" |}
             ltac:(discriminate) eq_refl eq_refl)))). }
  split.
  { exact (proj1 (proj1 (proj2 (proj2 (proj2 (executeLabelsTemplate_cache
             rule_probe_unparsable ∅ {[ "a" := "0" ]}))))
             (ErrExternal "unclosed action") ltac:(discriminate) eq_refl eq_refl)). }
  destruct (executeLabelsTemplate_cache rule_probe_uncached_fail ∅ ∅)
    as (_ & _ & Hparse' & _ & Hagain').
  rewrite (Hagain' ∅ {[ "a" := "0" ]}).
  exact (proj1 (proj2 (proj2 (Hparse' {| probe_text := "{{fail}}" |}
                               ltac:(discriminate) eq_refl eq_refl)))).
Defined.

Lemma Execute_only_fills_cache_witness :
  exists o, fst (V1alpha1.Execute rule_matchany_template (snapshot ∅)) =
              set_labelsTemplate rule_matchany_template o /\
            (o = None \/ o = Some {| template_text := "a=1" |}).
Proof.
  destruct (Execute_only_fills_cache rule_matchany_template (snapshot ∅)) as (o & H1 & _ & H3).
  exists o. split; [exact H1|].
  destruct (H3 eq_refl) as [->|(t & -> & Hp)]; [left; reflexivity|right].
  simpl in Hp. injection Hp as <-. reflexivity.
Defined.

Lemma SetConfig_compiles_witness :
  SetConfig [matchany_spec] =
    Some [{| crLegacyRule := None; crRule := Some rule_matchany_compiled |}] /\
  exists t, template_Parse "a=1" = inl t /\
            Some rule_matchany_compiled = Some (set_labelsTemplate rule_matchany_template (Some t)).
Proof.
  assert (H : SetConfig [matchany_spec] =
                Some [{| crLegacyRule := None; crRule := Some rule_matchany_compiled |}])
    by reflexivity.
  split; [exact H|].
  pose proof (proj2 (SetConfig_compiles [matchany_spec]) _ H) as HF.
  apply Forall2_cons in HF as [(_ & _ & Hr) _].
  assert (Hne : LabelsTemplate rule_matchany_template <> "") by discriminate.
  destruct (proj2 (Hr rule_matchany_template eq_refl) Hne) as (t & Hp & Hc).
  exists t. split; [exact Hp|exact Hc].
Defined.

Lemma GetLabels_precedence_witness :
  exists labels, fst (fst (GetLabels ∅ [static_spec] [override_spec] [])) = Some labels /\
                 labels !! "label-1" = Some "false".
Proof.
  assert (H1 : ([static_spec] ++ [override_spec] ++ [])%list =
               ([static_spec] ++ override_spec :: [])%list) by reflexivity.
  assert (H2 : CustomRule_execute override_spec ∅ = (Some {[ "label-1" := "false" ]}, None))
    by (vm_compute; reflexivity).
  assert (H3 : ({[ "label-1" := "false" ]} : gmap string string) !! "label-1" = Some "false")
    by reflexivity.
  assert (H4 : Forall (fun rl' : CustomRule' => forall out',
                 CustomRule_execute rl' ∅ = (Some out', None) -> out' !! "label-1" = None) [])
    by constructor.
  exact (proj1 (proj2 (GetLabels_precedence ∅ [static_spec] [override_spec] []))
           _ _ _ _ _ _ H1 H2 H3 H4).
Defined.

Lemma CustomRule_execute_dispatch_witness :
  CustomRule_execute ({| crLegacyRule := Some legacy_rule_example; crRule := None |} : CustomRule') ∅ =
  CustomRule_execute ({| crLegacyRule := Some legacy_rule_example; crRule := Some rule_static |}
                        : CustomRule') ∅.
Proof.
  exact (proj1 (CustomRule_execute_dispatch
                  ({| crLegacyRule := Some legacy_rule_example; crRule := None |} : CustomRule') ∅)
           legacy_rule_example (Some rule_static) eq_refl).
Defined.

Lemma custom_matchAny_semantics_witness :
  Custom.matchAny_loop rule_shadowed_domain snapshot_val1
    ([] ++ {| MatchAnyFeatures := [] |} :: [{| MatchAnyFeatures := [missing_term] |}])%list
    false {[ "x" := "y" ]} = (true, {[ "x" := "y" ]}, None) /\
  Custom.matchAny_loop rule_two_alternatives snapshot_val1 (MatchAny rule_two_alternatives) false ∅ =
    (true, {[ "feature" := "vf-1" ]}, None) /\
  Custom.matchAny_loop rule_two_alternatives snapshot_val1 (take 1 (MatchAny rule_two_alternatives))
    false ∅ = (true, {[ "feature" := "kf-1" ]}, None) /\
  Custom.execute rule_two_alternatives snapshot_val1 =
    (Some {[ "static" := "s"; "feature" := "vf-1" ]}, None).
Proof.
  destruct (custom_matchAny_semantics rule_two_alternatives snapshot_val1) as (_ & Hloop & Hexec).
  assert (H1 : labelsTemplate rule_two_alternatives = Some {| list_key := "feature" |})
    by reflexivity.
  assert (H4 : forall alts, alts ⊆ MatchAny rule_two_alternatives ->
                 forall a, a ∈ alts -> snd (MatchAnyElem_match snapshot_val1 a) = None).
  { intros alts Hsub a Ha. apply Hsub in Ha. simpl in Ha.
    apply elem_of_cons in Ha as [->|Ha]; [vm_compute; reflexivity|].
    apply list_elem_of_singleton in Ha as ->. vm_compute. reflexivity. }
  assert (H5 : forall (alts : list (MatchAnyElem MatchExpressionList)) a m, a ∈ alts ->
                 MatchAnyElem_match snapshot_val1 a = (Some m, None) ->
                 snd (template_Execute {| list_key := "feature" |} m) = None)
    by (intros; reflexivity).
  split.
  { refine (proj1 (custom_matchAny_semantics rule_shadowed_domain snapshot_val1)
              [] {| MatchAnyFeatures := [] |} [{| MatchAnyFeatures := [missing_term] |}]
              _ {[ "x" := "y" ]} eq_refl _ _); [constructor|reflexivity]. }
  split.
  { rewrite (Hloop _ _ false ∅ H1 (H4 _ (reflexivity _)) (H5 _)). vm_compute. reflexivity. }
  split.
  { rewrite (Hloop _ _ false ∅ H1 (H4 _ (subseteq_take 1 _)) (H5 _)). vm_compute. reflexivity. }
  rewrite (Hexec _ H1 ltac:(discriminate) eq_refl (H4 _ (reflexivity _)) (H5 _)).
  vm_compute. reflexivity.
Defined.

Lemma template_labels_shape_witness :
  V1alpha1.expandMap {| template_text := "a=1" |} ∅ = (Some {[ "a" := "1" ]}, None) /\
  has_no "=" "a" = true /\ has_no newline "a" = true /\ has_no newline "1" = true.
Proof.
  assert (H1 : V1alpha1.expandMap {| template_text := "a=1" |} ∅ = (Some {[ "a" := "1" ]}, None))
    by (vm_compute; reflexivity).
  assert (H2 : ({[ "a" := "1" ]} : gmap string string) !! "a" = Some "1") by reflexivity.
  split; [exact H1|].
  exact (proj1 (template_labels_shape (MatchExpressionSet:=MatchExpressionList)) _ _ _ _ _ H1 H2).
Defined.

Lemma kconfig_UnmarshalJSON_entries_witness :
  fst (Rules.kconfig_UnmarshalJSON json_identity {| Rules.Name := ""; Rules.Value := "" |} "NO_HZ=y") =
    {| Rules.Name := "NO_HZ"; Rules.Value := "y" |}.
Proof.
  assert (H1 : json_identity "NO_HZ=y" = inl "NO_HZ=y") by reflexivity.
  assert (H2 : has_no "=" "NO_HZ" = true) by reflexivity.
  assert (H3 : "NO_HZ=y" = "NO_HZ" ++ String "=" "y") by reflexivity.
  exact (proj2 (proj2 (proj2 (proj2 (kconfig_UnmarshalJSON_entries json_identity
                                       {| Rules.Name := ""; Rules.Value := "" |} "NO_HZ=y") _ H1)))
           _ _ H2 H3).
Defined.

Lemma KconfigRule_Match_spec_witness :
  Rules.KconfigRule_Match (Some {[ "NO_HZ" := "y" ]}) [{| Rules.Name := "NO_HZ"; Rules.Value := "y" |}] =
    (true, None).
Proof.
  destruct (proj2 (KconfigRule_Match_spec (Some {[ "NO_HZ" := "y" ]})
                     [{| Rules.Name := "NO_HZ"; Rules.Value := "y" |}]) _ eq_refl) as [He Hiff].
  assert (Hm : fst (Rules.KconfigRule_Match (Some {[ "NO_HZ" := "y" ]})
                      [{| Rules.Name := "NO_HZ"; Rules.Value := "y" |}]) = true).
  { apply Hiff. constructor; [reflexivity|constructor]. }
  destruct (Rules.KconfigRule_Match _ _) as [b e]. simpl in He, Hm. by rewrite He, Hm.
Defined.

Lemma NodenameRule_Match_spec_witness :
  Rules.NodenameRule_Match exact_match (Some "node-1") ["node-0"; "node-1"] = (true, None).
Proof.
  destruct (proj2 (NodenameRule_Match_spec exact_match (Some "node-1") ["node-0"; "node-1"])
              _ eq_refl) as [He Hiff].
  assert (Hm : fst (Rules.NodenameRule_Match exact_match (Some "node-1") ["node-0"; "node-1"]) = true).
  { apply Hiff. exists "node-1". split; [right; left|reflexivity]. }
  destruct (Rules.NodenameRule_Match _ _ _) as [b e]. simpl in He, Hm. by rewrite He, Hm.
Defined.

Lemma parse_kconfig_raw_flags_witness :
  is_Some (Kernel.parse_kconfig_raw kconfig_example !! "PREEMPT").
Proof.
  apply (proj2 (parse_kconfig_raw_flags kconfig_example "PREEMPT")).
  split; [discriminate|split; [reflexivity|right]].
  apply list_elem_of_In. vm_compute. auto.
Defined.

Lemma parseKconfig_sources_witness :
  Kernel.parseKconfig example_os file_nfd_config =
    (Some (Kernel.parse_kconfig_raw kconfig_example), None).
Proof.
  assert (H1 : Kernel.KconfigFile file_nfd_config <> "") by discriminate.
  assert (H2 : fst (Kernel.ReadFile example_os (Kernel.KconfigFile file_nfd_config)) =
               Some kconfig_example) by (vm_compute; reflexivity).
  exact (proj1 (parseKconfig_sources example_os file_nfd_config) H1 _ H2).
Defined.

Lemma Discover_features_witness :
  "config-PREEMPT" ∈ fst (Kernel.Discover example_os default_nfd_config).
Proof.
  pose proof (Discover_features example_os default_nfd_config) as HD. cbv zeta in HD.
  destruct HD as (_ & HD & _). apply (HD "PREEMPT"). split.
  - apply list_elem_of_In. vm_compute. auto.
  - exists true. vm_compute. reflexivity.
Defined.
